(** * myAtmosphere: feed filter, thread builder and local cache

    A shallow embedding of [src/utils/bluesky.ts] (the self-only thread
    filter and the thread builder) and of [src/utils/cache.ts] (the
    localStorage cache), with the properties of the written description
    stated and proved over it.

    Conventions of the embedding.
    - Asynchronous functions are embedded as the sequential programs they
      are: every [await] is a call.
    - The network is a function from the requested post URI to the
      response of [app.bsky.feed.getPostThread].
    - Loops and recursions that the source does not bound take a [fuel]
      argument and answer [None] when it runs out; [None] therefore
      stands for a call that has not returned after that many steps.
    - [indexedAt] holds the time value that [new Date(indexedAt).getTime()]
      computes for the date string of the post, in milliseconds.
    - A call of the cache reads the clock once: [now] is the value of
      [Date.now()] during the call.
    - Exceptions of localStorage itself (quota, unavailability), which
      the cache logs and swallows, are not part of the embedding. *)

From Stdlib Require Import ZArith Lia Ascii.
From stdpp Require Import gmap strings list fin_maps sorting pretty relations.

Local Open Scope string_scope.
Local Open Scope list_scope.
Local Open Scope Z_scope.

(** ** Data of the Bluesky API (interfaces of bluesky.ts) *)

Module Bluesky.

Record BlueskyAuthor := {
  did : string;
  handle : string;
  displayName : option string;
  avatar : option string
}.

(** [record.reply]: [{parent: {uri}, root: {uri}}]. *)
Record ReplyRef := {
  parent_uri : string;
  root_uri : string
}.

(** The source declares [text: string] and still tests it against
    [undefined]; the field is optional here so that the test is kept. *)
Record BlueskyRecord := {
  text : option string;
  createdAt : string;
  reply : option ReplyRef;
  type_ : option string
}.

Record BlueskyPost := {
  uri : string;
  cid : string;
  author : BlueskyAuthor;
  record : BlueskyRecord;
  indexedAt : Z;
  likeCount : option Z;
  repostCount : option Z;
  replyCount : option Z
}.

Record Reason := {
  reason_type : string;
  reason_by : option BlueskyAuthor;
  reason_indexedAt : option string
}.

Record BlueskyFeedItem := {
  post : BlueskyPost;
  reason : option Reason
}.

(** ** The network seen by the ancestor walk *)

(** What [await parentResponse.json()] yields, as far as
    [parentData.thread.post] reads it. *)
Inductive PostThreadJson :=
| BadJson                                  (* json() rejects *)
| NoThread                                 (* no [thread] member: reading [.post] throws *)
| Thread (thread_post : option BlueskyPost) (* [thread.post], undefined for a view without a post *).

Inductive Response :=
| Rejected                       (* fetch() rejects *)
| NotOk                          (* response.ok is false *)
| Ok (parentData : PostThreadJson).

Definition Network := string → Response.

(** ** isReplyInSelfOnlyThread *)

Section Filter.

Variable fetch : Network.

(** [checkedAuthors.size === 1 && checkedAuthors.has(userDid)] *)
Definition only_user (checkedAuthors : gset string) (userDid : string) : bool :=
  bool_decide (size checkedAuthors = 1%nat) && bool_decide (userDid ∈ checkedAuthors).

(** The [while (currentPost)] loop; one unit of fuel per evaluation of
    the loop condition. Every [return false] of the source, those of the
    [catch] block included, is [Some false]. *)
Fixpoint walk (fuel : nat) (userDid : string)
    (currentPost : option BlueskyPost) (checkedAuthors : gset string) : option bool :=
  match fuel with
  | O => None
  | S fuel' =>
    match currentPost with
    | None => Some (only_user checkedAuthors userDid)
    | Some cur =>
      let checkedAuthors := checkedAuthors ∪ {[ did (author cur) ]} in
      if bool_decide (did (author cur) ≠ userDid) then Some false
      else
        match reply (record cur) with
        | None => Some (only_user checkedAuthors userDid)
        | Some r =>
          match fetch (parent_uri r) with
          | Rejected => Some false
          | NotOk => Some false
          | Ok BadJson => Some false
          | Ok NoThread => Some false
          | Ok (Thread parent) => walk fuel' userDid parent checkedAuthors
          end
        end
    end
  end.

Definition isReplyInSelfOnlyThread (fuel : nat) (post : BlueskyPost) (userDid : string)
  : option bool :=
  walk fuel userDid (Some post) ∅.

(** ** filterPostsForSelfOnlyThreads *)

Definition reasonRepost : string := "app.bsky.feed.defs#reasonRepost".
Definition feedRepost : string := "app.bsky.feed.repost".

(** [item.reason && item.reason.$type === "app.bsky.feed.defs#reasonRepost"] *)
Definition has_repost_reason (item : BlueskyFeedItem) : bool :=
  match reason item with
  | Some r => bool_decide (reason_type r = reasonRepost)
  | None => false
  end.

(** [post.record.$type === "app.bsky.feed.repost"] *)
Definition is_repost_record (p : BlueskyPost) : bool :=
  bool_decide (type_ (record p) = Some feedRepost).

(** The [for (const item of feedItems)] loop, with [filteredPosts] as
    accumulator: [continue] goes on with the accumulator unchanged,
    [push] appends to it. *)
Fixpoint filter_loop (fuel : nat) (userDid : string)
    (feedItems filteredPosts : list BlueskyFeedItem) : option (list BlueskyFeedItem) :=
  match feedItems with
  | [] => Some filteredPosts
  | item :: rest =>
    if has_repost_reason item then filter_loop fuel userDid rest filteredPosts
    else if is_repost_record (post item) then filter_loop fuel userDid rest filteredPosts
    else
      match text (record (post item)) with
      | None => filter_loop fuel userDid rest filteredPosts
      | Some _ =>
        match reply (record (post item)) with
        | None => filter_loop fuel userDid rest (filteredPosts ++ [item])
        | Some _ =>
          match isReplyInSelfOnlyThread fuel (post item) userDid with
          | None => None
          | Some true => filter_loop fuel userDid rest (filteredPosts ++ [item])
          | Some false => filter_loop fuel userDid rest filteredPosts
          end
        end
      end
  end.

Definition filterPostsForSelfOnlyThreads (fuel : nat)
    (feedItems : list BlueskyFeedItem) (userDid : string) : option (list BlueskyFeedItem) :=
  filter_loop fuel userDid feedItems [].

End Filter.

(** ** Array.prototype.sort

    The language sorts stably: elements that [compareFn] does not order
    (result 0) keep their relative position, and an element moves before
    another only when [compareFn] puts it strictly first. The embedding is
    the stable insertion sort with the comparator of the caller. *)

Section JsSort.

Context {A : Type} (compareFn : A → A → Z).

Fixpoint sort_insert (x : A) (sorted : list A) : list A :=
  match sorted with
  | [] => [x]
  | y :: ys =>
    if bool_decide (compareFn x y ≤ 0) then x :: y :: ys
    else y :: sort_insert x ys
  end.

Fixpoint js_sort (l : list A) : list A :=
  match l with
  | [] => []
  | x :: l' => sort_insert x (js_sort l')
  end.

End JsSort.

(** ** groupPostsIntoThreads

    The nodes are objects shared between [postMap], the [children] arrays
    and [threadRoots], and they are mutated after they have been stored.
    After the first pass every reference the code holds is to the object
    that [postMap] keeps under its URI, so [postMap] is the store, and a
    reference is the URI. *)

Record BlueskyThreadItem := {
  node_post : BlueskyPost;          (* ...item *)
  node_reason : option Reason;      (* ...item *)
  children : list string;           (* references *)
  isThreadRoot : bool
}.

Definition new_node (item : BlueskyFeedItem) : BlueskyThreadItem :=
  {| node_post := post item; node_reason := reason item;
     children := []; isThreadRoot := false |}.

(** [parent.children.push(postData)] *)
Definition push_child (parent : BlueskyThreadItem) (ref : string) : BlueskyThreadItem :=
  {| node_post := node_post parent; node_reason := node_reason parent;
     children := children parent ++ [ref]; isThreadRoot := isThreadRoot parent |}.

(** [postData.isThreadRoot = true] *)
Definition mark_root (postData : BlueskyThreadItem) : BlueskyThreadItem :=
  {| node_post := node_post postData; node_reason := node_reason postData;
     children := children postData; isThreadRoot := true |}.

(** [thread.children.sort(...)] writes the sorted array back in place. *)
Definition set_children (thread : BlueskyThreadItem) (cs : list string) : BlueskyThreadItem :=
  {| node_post := node_post thread; node_reason := node_reason thread;
     children := cs; isThreadRoot := isThreadRoot thread |}.

Record BuildState := {
  postMap : gmap string BlueskyThreadItem;
  threadRoots : list string
}.

(** First pass: [postMap.set(item.post.uri, {...item, children: [], isThreadRoot: false})]. *)
Definition index_posts (posts : list BlueskyFeedItem) : gmap string BlueskyThreadItem :=
  foldl (λ m item, <[uri (post item) := new_node item]> m) ∅ posts.

Definition add_root (st : BuildState) (ref : string) (postData : BlueskyThreadItem)
  : BuildState :=
  {| postMap := <[ref := mark_root postData]> (postMap st);
     threadRoots := threadRoots st ++ [ref] |}.

(** Second pass, the body of [posts.forEach]. *)
Definition attach (st : BuildState) (item : BlueskyFeedItem) : BuildState :=
  match postMap st !! uri (post item) with
  | None => st
  | Some postData =>
    match reply (record (post item)) with
    | Some r =>
      match postMap st !! parent_uri r with
      | Some parent =>
        {| postMap := <[parent_uri r := push_child parent (uri (post item))]> (postMap st);
           threadRoots := threadRoots st |}
      | None => add_root st (uri (post item)) postData
      end
    | None => add_root st (uri (post item)) postData
    end
  end.

Definition build (posts : list BlueskyFeedItem) : BuildState :=
  foldl attach {| postMap := index_posts posts; threadRoots := [] |} posts.

(** [new Date(x.post.indexedAt).getTime()] through a reference (every
    reference the builder holds has its object; the default is not used). *)
Definition time_of (m : gmap string BlueskyThreadItem) (ref : string) : Z :=
  match m !! ref with
  | Some node => indexedAt (node_post node)
  | None => 0
  end.

(** [(a, b) => time(b) - time(a)]: newest first. *)
Definition newest_first (m : gmap string BlueskyThreadItem) (a b : string) : Z :=
  time_of m b - time_of m a.

(** [(a, b) => time(a) - time(b)]: oldest first. *)
Definition oldest_first (m : gmap string BlueskyThreadItem) (a b : string) : Z :=
  time_of m a - time_of m b.

(** [sortThreadChildren]; the fuel bounds the depth of the recursion.
    The array is sorted in place, then [forEach] visits the children in
    the sorted order. *)
Fixpoint sortThreadChildren (fuel : nat) (m : gmap string BlueskyThreadItem)
    (thread : string) : option (gmap string BlueskyThreadItem) :=
  match fuel with
  | O => None
  | S fuel' =>
    match m !! thread with
    | None => Some m
    | Some node =>
      let sorted := js_sort (oldest_first m) (children node) in
      foldl (λ acc child, acc ≫= λ m', sortThreadChildren fuel' m' child)
            (Some (<[thread := set_children node sorted]> m)) sorted
    end
  end.

(** The value of [groupPostsIntoThreads]: the array of roots and the
    objects it reaches. *)
Record ThreadForest := {
  roots : list string;
  nodes : gmap string BlueskyThreadItem
}.

Definition groupPostsIntoThreads (fuel : nat) (posts : list BlueskyFeedItem)
    (_userDid : string) : option ThreadForest :=
  let st := build posts in
  let sortedRoots := js_sort (newest_first (postMap st)) (threadRoots st) in
  m ← foldl (λ acc root, acc ≫= λ m', sortThreadChildren fuel m' root)
            (Some (postMap st)) sortedRoots;
  Some {| roots := sortedRoots; nodes := m |}.

End Bluesky.

(** ** The cache (class Cache of cache.ts) *)

Module Cache.

Record CacheItem (T : Type) := {
  data : T;
  timestamp : Z;
  expiry : Z
}.
Arguments data {T}.
Arguments timestamp {T}.
Arguments expiry {T}.

Record PostsCacheData (P : Type) := {
  posts : list P;
  cursor : option string;
  handle : string
}.
Arguments posts {P}.
Arguments cursor {P}.
Arguments handle {P}.

(** A value of localStorage is a string, and the cache only ever hands
    it to [JSON.parse]. The store keeps what [JSON.parse] makes of it:
    the item that [JSON.stringify] wrote, or a text that does not parse. *)
Inductive Stored (T : Type) :=
| Malformed (raw : string)
| Json (item : CacheItem T).
Arguments Malformed {T}.
Arguments Json {T}.

Definition CACHE_PREFIX : string := "bskyweb_cache_".
Definition DEFAULT_TTL : Z := 5 * 60 * 1000.
Definition POSTS_TTL : Z := 2 * 60 * 1000.
Definition PROFILE_TTL : Z := 30 * 60 * 1000.

Definition getKey (key : string) : string := CACHE_PREFIX +:+ key.

Section Generic.

Context {T : Type}.

(** [now] is the value of [Date.now()]. *)
Definition isExpired (now : Z) (item : CacheItem T) : bool :=
  bool_decide (now > timestamp item + expiry item).

(** [ttl || this.DEFAULT_TTL]: an absent or zero [ttl] gives the default. *)
Definition ttl_or_default (ttl : option Z) : Z :=
  match ttl with
  | Some t => if bool_decide (t = 0) then DEFAULT_TTL else t
  | None => DEFAULT_TTL
  end.

Definition set (now : Z) (ls : gmap string (Stored T)) (key : string) (d : T)
    (ttl : option Z) : gmap string (Stored T) :=
  <[getKey key := Json {| data := d; timestamp := now; expiry := ttl_or_default ttl |}]> ls.

Definition delete_ (ls : gmap string (Stored T)) (key : string) : gmap string (Stored T) :=
  delete (getKey key) ls.

(** [get]: the result and the store it leaves. An empty text is falsy and
    gives [null] at once; any other malformed text makes [JSON.parse]
    throw, and the [catch] block returns [null]. *)
Definition get (now : Z) (ls : gmap string (Stored T)) (key : string)
  : option T * gmap string (Stored T) :=
  match ls !! getKey key with
  | None => (None, ls)
  | Some (Malformed raw) =>
    if bool_decide (raw = "") then (None, ls) else (None, ls)
  | Some (Json item) =>
    if isExpired now item then (None, delete_ ls key)
    else (Some (data item), ls)
  end.

End Generic.

(** [!cursor]: no cursor, or an empty one. *)
Definition no_cursor (cursor : option string) : bool :=
  match cursor with
  | Some c => bool_decide (c = "")
  | None => true
  end.

Section Posts.

(** The cached threads are [any[]]; the cache reads [thread.post?.uri]. *)
Context {P : Type} (post_uri : P → option string).

Definition getPosts (now : Z) (ls : gmap string (Stored (PostsCacheData P)))
    (handle : string) :=
  get now ls ("posts_" +:+ handle).

Definition setPosts (now : Z) (ls : gmap string (Stored (PostsCacheData P)))
    (handle : string) (posts : list P) (cursor : option string) (isInitial : bool)
  : gmap string (Stored (PostsCacheData P)) :=
  let key := "posts_" +:+ handle in
  if isInitial then
    set now ls key {| posts := posts; cursor := cursor; handle := handle |} (Some POSTS_TTL)
  else
    match getPosts now ls handle with
    | (Some existing, ls') =>
      set now ls' key
        {| posts := Cache.posts existing ++ posts; cursor := cursor; handle := handle |}
        (Some POSTS_TTL)
    | (None, ls') =>
      set now ls' key {| posts := posts; cursor := cursor; handle := handle |} (Some POSTS_TTL)
    end.

Definition appendPosts (now : Z) (ls : gmap string (Stored (PostsCacheData P)))
    (handle : string) (newPosts : list P) (newCursor : option string)
  : gmap string (Stored (PostsCacheData P)) :=
  match getPosts now ls handle with
  | (Some existing, ls') =>
    let existingUris : gset (option string) :=
      list_to_set (post_uri <$> Cache.posts existing) in
    let uniqueNewPosts :=
      filter (λ thread, post_uri thread ∉ existingUris) newPosts in
    if bool_decide (0 < length uniqueNewPosts)%nat then
      set now ls' ("posts_" +:+ handle)
        {| posts := Cache.posts existing ++ uniqueNewPosts;
           cursor := newCursor; handle := handle |}
        (Some POSTS_TTL)
    else ls'
  | (None, ls') => ls'
  end.

(** [preloadNextBatch]. [fetchFunction] reads and writes the store; it
    answers [None] when it throws, which the [catch] block swallows. *)
Definition preloadNextBatch (now : Z) (ls : gmap string (Stored (PostsCacheData P)))
    (handle : string)
    (fetchFunction : gmap string (Stored (PostsCacheData P)) → string → option string →
                     option (list P * option string) *
                     gmap string (Stored (PostsCacheData P)))
  : gmap string (Stored (PostsCacheData P)) :=
  match getPosts now ls handle with
  | (Some cached, ls') =>
    if no_cursor (Cache.cursor cached) then ls'
    else
      match fetchFunction ls' handle (Cache.cursor cached) with
      | (Some (response_posts, response_cursor), ls'') =>
        if bool_decide (0 < length response_posts)%nat
        then appendPosts now ls'' handle response_posts response_cursor
        else ls''
      | (None, ls'') => ls''
      end
  | (None, ls') => ls'
  end.

(** [fetchUserPosts(handle, cursor, limit, useCache)] of bluesky.ts, as
    far as the cache sees it. [remote handle cursor] stands for the
    requests and for the filter, the builder and the enricher applied to
    the page: the threads and the next cursor, or [None] when a request
    fails and the function throws. *)
Definition fetchUserPosts (remote : string → option string → option (list P * option string))
    (now : Z) (useCache : bool) (ls : gmap string (Stored (PostsCacheData P)))
    (handle : string) (cursor : option string)
  : option (list P * option string) * gmap string (Stored (PostsCacheData P)) :=
  let request ls' :=
    match remote handle cursor with
    | Some (enhancedPosts, next) =>
      (Some (enhancedPosts, next),
       if useCache then setPosts now ls' handle enhancedPosts next (no_cursor cursor)
       else ls')
    | None => (None, ls')
    end in
  if useCache && no_cursor cursor then
    match getPosts now ls handle with
    | (Some cached, ls') => (Some (Cache.posts cached, Cache.cursor cached), ls')
    | (None, ls') => request ls'
    end
  else request ls.

End Posts.

(** The remaining methods of the class. *)

Section Rest.

Context {T : Type}.

(** [clear]: [removeItem] on every key of localStorage that starts with
    the prefix. *)
Definition clear (ls : gmap string (Stored T)) : gmap string (Stored T) :=
  filter (λ kv, String.prefix CACHE_PREFIX kv.1 = false) ls.

(** [setProfile], [getProfile]: [profile] is [any]. *)
Definition setProfile (now : Z) (ls : gmap string (Stored T)) (handle : string)
    (profile : T) : gmap string (Stored T) :=
  set now ls ("profile_" +:+ handle) profile (Some PROFILE_TTL).

Definition getProfile (now : Z) (ls : gmap string (Stored T)) (handle : string)
  : option T * gmap string (Stored T) :=
  get now ls ("profile_" +:+ handle).

End Rest.

(** The value of [getCacheFreshness]: [{ isFresh, age }]. *)
Record Freshness := {
  isFresh : bool;
  age : Z
}.

(** [getCacheFreshness]: it reads the item itself and removes nothing;
    an empty text gives [null] at once, any other malformed text through
    the [catch] block. *)
Definition getCacheFreshness {P : Type} (now : Z)
    (ls : gmap string (Stored (PostsCacheData P))) (handle : string) : option Freshness :=
  match ls !! getKey ("posts_" +:+ handle) with
  | None => None
  | Some (Malformed raw) => if bool_decide (raw = "") then None else None
  | Some (Json item) =>
    let age := now - timestamp item in
    Some {| isFresh := bool_decide (age < POSTS_TTL); age := age |}
  end.

End Cache.

(** ** Further functions of bluesky.ts *)

Module Util.
Import Cache.

(** The answer of [app.bsky.actor.getProfile]. *)
Inductive ProfileResponse (T : Type) :=
| ProfileRejected                     (* fetch() rejects *)
| ProfileNotOk                        (* response.ok is false *)
| ProfileOk (json : option T)         (* the body; None when json() rejects *).
Arguments ProfileRejected {T}.
Arguments ProfileNotOk {T}.
Arguments ProfileOk {T}.

Section Profiles.

(** A profile is an object, so a cached one is truthy. *)
Context {T : Type}.
Variable remote : string → ProfileResponse T.

(** [fetchUserProfile]: a status that is not ok throws inside the [try],
    and the [catch] block returns [null]. *)
Definition fetchUserProfile (now : Z) (ls : gmap string (Stored T)) (handle : string)
  : option T * gmap string (Stored T) :=
  match getProfile now ls handle with
  | (Some cached, ls') => (Some cached, ls')
  | (None, ls') =>
    match remote handle with
    | ProfileRejected => (None, ls')
    | ProfileNotOk => (None, ls')
    | ProfileOk None => (None, ls')
    | ProfileOk (Some profile) => (Some profile, setProfile now ls' handle profile)
    end
  end.

(** [fetchProfileData]: only an ok status is handled; everything else
    falls through to [return null]. *)
Definition fetchProfileData (now : Z) (ls : gmap string (Stored T)) (did : string)
  : option T * gmap string (Stored T) :=
  match getProfile now ls did with
  | (Some cached, ls') => (Some cached, ls')
  | (None, ls') =>
    match remote did with
    | ProfileOk (Some profileData) => (Some profileData, setProfile now ls' did profileData)
    | ProfileOk None => (None, ls')
    | ProfileNotOk => (None, ls')
    | ProfileRejected => (None, ls')
    end
  end.

End Profiles.

(** [uri.split("/")]: the segments between the slashes, at least one. *)
Fixpoint split_slash (s : string) : list string :=
  match s with
  | EmptyString => [""]
  | String c rest =>
    if bool_decide (c = "/"%char) then "" :: split_slash rest
    else
      match split_slash rest with
      | seg :: segs => String c seg :: segs
      | [] => [String c ""]
      end
  end.

(** [getPostUrl]: [pop()] takes the last segment; of an empty array it
    would give [undefined], which the template prints as such. *)
Definition getPostUrl (uri handle : string) : string :=
  let postId :=
    match last (split_slash uri) with
    | Some segment => segment
    | None => "undefined"
    end in
  "https://bsky.app/profile/" +:+ handle +:+ "/post/" +:+ postId.

Section FormatDate.

(** [date.toLocaleDateString("en-US", ...)] with or without the year, and
    [getFullYear], are taken from the environment; [date] and [now] are
    the time values of the two [Date] objects, the date string being one
    that parses, and the template prints the whole numbers in decimal. *)
Variable toLocaleDateString : Z → bool → string.
Variable getFullYear : Z → Z.

Definition formatDate (now date : Z) : string :=
  let diffMs := now - date in
  let diffMinutes := diffMs `div` (1000 * 60) in
  let diffHours := diffMs `div` (1000 * 60 * 60) in
  let diffDays := diffMs `div` (1000 * 60 * 60 * 24) in
  if bool_decide (diffMinutes < 1) then "now"
  else if bool_decide (diffMinutes < 60) then pretty diffMinutes +:+ "m"
  else if bool_decide (diffHours < 24) then pretty diffHours +:+ "h"
  else if bool_decide (diffDays < 7) then pretty diffDays +:+ "d"
  else toLocaleDateString date (bool_decide (getFullYear date ≠ getFullYear now)).

End FormatDate.

End Util.

(** * Specification predicates *)

Module FilterSpec.
Import Bluesky.

Section Chains.

Variable fetch : Network.
Variable userDid : string.



(** The walk from [p] stops after [n] successful lookups of a post: at a
    foreign author, at a post without reply reference, or at a lookup
    that gives no post. *)
Inductive StopsAfter : nat → BlueskyPost → Prop :=
| stops_foreign p :
    did (author p) ≠ userDid →
    StopsAfter 0 p
| stops_root p :
    reply (record p) = None →
    StopsAfter 0 p
| stops_lookup p r :
    reply (record p) = Some r →
    (∀ q, fetch (parent_uri r) ≠ Ok (Thread (Some q))) →
    StopsAfter 0 p
| stops_above n p r q :
    did (author p) = userDid →
    reply (record p) = Some r →
    fetch (parent_uri r) = Ok (Thread (Some q)) →
    StopsAfter n q →
    StopsAfter (S n) p.

(** The verdict of the loop body of the filter on one entry. *)
Definition keeps (fuel : nat) (item : BlueskyFeedItem) : option bool :=
  if has_repost_reason item then Some false
  else if is_repost_record (post item) then Some false
  else match text (record (post item)) with
       | None => Some false
       | Some _ =>
         match reply (record (post item)) with
         | None => Some true
         | Some _ => isReplyInSelfOnlyThread fetch fuel (post item) userDid
         end
       end.

End Chains.

End FilterSpec.

Module BuilderSpec.
Import Bluesky.

Definition uri_of (item : BlueskyFeedItem) : string := uri (post item).
Arguments uri_of : simpl never.

(** [post.record.reply.parent.uri], when the entry is a reply. *)
Definition parent_of (item : BlueskyFeedItem) : option string :=
  parent_uri <$> reply (record (post item)).

(** The entry is a reply to a post of the same page. *)
Definition parent_in_page (posts : list BlueskyFeedItem) (item : BlueskyFeedItem) : Prop :=
  ∃ p, parent_of item = Some p ∧ p ∈ uri_of <$> posts.

(** The children array behind a reference. *)
Definition children_of (m : gmap string BlueskyThreadItem) (ref : string) : list string :=
  match m !! ref with
  | Some node => children node
  | None => []
  end.

(** [v] is [u] or below [u]. *)
Inductive reach (m : gmap string BlueskyThreadItem) : string → string → Prop :=
| reach_here u : reach m u u
| reach_below u c v : c ∈ children_of m u → reach m c v → reach m u v.

(** The nodes of the forest: the roots and what is below them. *)
Definition in_forest (f : ThreadForest) (u : string) : Prop :=
  ∃ r, r ∈ roots f ∧ reach (nodes f) r u.

(** Ascending order of the key. *)
Definition by_key {A} (key : A → Z) (x y : A) : Prop := key x ≤ key y.

(** The entry becomes a root: it is no reply, or its parent is not a key
    of the index [m0]. *)
Definition is_root (m0 : gmap string BlueskyThreadItem) (item : BlueskyFeedItem) : bool :=
  match parent_of item with
  | Some p => bool_decide (m0 !! p = None)
  | None => true
  end.

(** The node under [u] once the entries [done] have been attached,
    from the node [node0] of the index. *)
Definition built_node (m0 : gmap string BlueskyThreadItem) (done : list BlueskyFeedItem)
    (u : string) (node0 : BlueskyThreadItem) : BlueskyThreadItem :=
  {| node_post := node_post node0; node_reason := node_reason node0;
     children := uri_of <$> filter (λ item, parent_of item = Some u) done;
     isThreadRoot :=
       bool_decide (u ∈ uri_of <$> filter (λ item, is_root m0 item = true) done) |}.

(** The state before the second pass. *)
Definition start (m0 : gmap string BlueskyThreadItem) : BuildState :=
  {| postMap := m0; threadRoots := [] |}.

(** All nodes below [u] are at most [n] levels deep. *)
Inductive height_le (m : gmap string BlueskyThreadItem) : nat → string → Prop :=
| height_le_intro n u :
    (∀ c, c ∈ children_of m u → height_le m n c) → height_le m (S n) u.

(** [l] lists the nodes from [u] up to a root of the page. *)
Inductive path_up (m : gmap string BlueskyThreadItem) (rs : list string)
  : list string → string → Prop :=
| path_root r : r ∈ rs → path_up m rs [r] r
| path_child l u c : c ∈ children_of m u → path_up m rs l u → path_up m rs (c :: l) c.

(** The children of [u] in [m0], as [sortThreadChildren] leaves them. *)
Definition sorted_kids (m0 : gmap string BlueskyThreadItem) (u : string) : list string :=
  js_sort (oldest_first m0) (children_of m0 u).

(** [m] is [m0] with the children of some nodes sorted. *)
Definition partly_sorted (m0 m : gmap string BlueskyThreadItem) : Prop :=
  ∀ u, option_Forall2
         (λ n0 n, node_post n = node_post n0 ∧ node_reason n = node_reason n0 ∧
                  isThreadRoot n = isThreadRoot n0 ∧
                  (children n = children n0 ∨
                   children n = js_sort (oldest_first m0) (children n0)))
         (m0 !! u) (m !! u).

(** What a call of [sortThreadChildren] on [u] achieves from [m] to [m']. *)
Definition sorts_below (m0 : gmap string BlueskyThreadItem) (u : string)
    (m m' : gmap string BlueskyThreadItem) : Prop :=
  partly_sorted m0 m' ∧
  (∀ v, children_of m v = sorted_kids m0 v → children_of m' v = sorted_kids m0 v) ∧
  (∀ v, reach m0 u v → children_of m' v = sorted_kids m0 v).

(** The [forEach] loops that call [sortThreadChildren] on each reference. *)
Definition sort_each (step : gmap string BlueskyThreadItem → string →
                             option (gmap string BlueskyThreadItem))
    (acc : option (gmap string BlueskyThreadItem)) (refs : list string)
  : option (gmap string BlueskyThreadItem) :=
  foldl (λ acc r, acc ≫= λ m', step m' r) acc refs.

(** The forest of a page, as the builder leaves it: the roots of the
    second pass sorted, and the nodes of the second pass with the children
    of every node below a root sorted. *)
Definition built_from (posts : list BlueskyFeedItem) (forest : ThreadForest) : Prop :=
  roots forest = js_sort (newest_first (postMap (build posts))) (threadRoots (build posts)) ∧
  partly_sorted (postMap (build posts)) (nodes forest) ∧
  (∀ r v, r ∈ threadRoots (build posts) →
          reach (postMap (build posts)) r v →
          children_of (nodes forest) v = sorted_kids (postMap (build posts)) v).

(** The entry becomes a root of its page. *)
Definition is_root_entry (posts : list BlueskyFeedItem) (item : BlueskyFeedItem) : bool :=
  match parent_of item with
  | Some p => bool_decide (p ∉ uri_of <$> posts)
  | None => true
  end.

End BuilderSpec.

Module MoreSpec.
Import Bluesky BuilderSpec.

Section Chains.

Variable fetch : Network.
Variable userDid : string.

(** The lookup of a parent fails: no ok status, a rejected request, a
    body that is no JSON or has no [thread] member. *)
Definition lookup_fails (u : string) : Prop :=
  fetch u = Rejected ∨ fetch u = NotOk ∨ fetch u = Ok BadJson ∨ fetch u = Ok NoThread.

(** Somewhere up the chain of [p] a lookup fails. *)
Inductive FailsInChain : BlueskyPost → Prop :=
| fails_here p r :
    reply (record p) = Some r →
    lookup_fails (parent_uri r) →
    FailsInChain p
| fails_above p r q :
    reply (record p) = Some r →
    fetch (parent_uri r) = Ok (Thread (Some q)) →
    FailsInChain q →
    FailsInChain p.

(** The chains on which the walk answers [true]: posts of [userDid] up
    to a post without reply reference, or up to a lookup that succeeds
    without a post. *)
Inductive Accepted : BlueskyPost → Prop :=
| accepted_root p :
    did (author p) = userDid →
    reply (record p) = None →
    Accepted p
| accepted_no_post p r :
    did (author p) = userDid →
    reply (record p) = Some r →
    fetch (parent_uri r) = Ok (Thread None) →
    Accepted p
| accepted_reply p r q :
    did (author p) = userDid →
    reply (record p) = Some r →
    fetch (parent_uri r) = Ok (Thread (Some q)) →
    Accepted q →
    Accepted p.

End Chains.

(** [b] is the entry of the page that [a] replies to. *)
Definition replies_to (posts : list BlueskyFeedItem) (a b : BlueskyFeedItem) : Prop :=
  a ∈ posts ∧ b ∈ posts ∧ parent_of a = Some (uri_of b).

(** The in-page parents of the entry lead to an entry that is no reply
    to a post of the page. *)
Inductive Rooted (posts : list BlueskyFeedItem) : BlueskyFeedItem → Prop :=
| rooted_root item :
    item ∈ posts → ¬ parent_in_page posts item → Rooted posts item
| rooted_reply item parent :
    replies_to posts item parent → Rooted posts parent → Rooted posts item.

(** The text holds no slash. *)
Fixpoint no_slash (s : string) : bool :=
  match s with
  | EmptyString => true
  | String c rest => negb (bool_decide (c = "/"%char)) && no_slash rest
  end.

End MoreSpec.

(** * Sample data *)

Module Samples.
Import Bluesky.

Definition me : string := "did:plc:me".
Definition other : string := "did:plc:other".

Definition author_of (d : string) : BlueskyAuthor :=
  {| did := d; handle := d; displayName := None; avatar := None |}.

Definition reply_to (parent : string) : option ReplyRef :=
  Some {| parent_uri := parent; root_uri := parent |}.

Definition mk_post (u d : string) (r : option ReplyRef) (t : Z) : BlueskyPost :=
  {| uri := u; cid := u; author := author_of d;
     record := {| text := Some "hello"; createdAt := "2025-01-01T00:00:00Z";
                  reply := r; type_ := Some "app.bsky.feed.post" |};
     indexedAt := t; likeCount := None; repostCount := None; replyCount := None |}.

Definition entry (p : BlueskyPost) : BlueskyFeedItem :=
  {| post := p; reason := None |}.

Definition reposted (p : BlueskyPost) : BlueskyFeedItem :=
  {| post := p;
     reason := Some {| reason_type := reasonRepost; reason_by := None;
                       reason_indexedAt := None |} |}.

(** A thread of [me]: root, reply, reply to the reply. *)
Definition my_root := mk_post "at://me/1" me None 10.
Definition my_reply := mk_post "at://me/2" me (reply_to "at://me/1") 20.
Definition my_reply2 := mk_post "at://me/3" me (reply_to "at://me/2") 30.

(** A thread started by [other], with a reply of [me] and a reply of
    [me] to that reply. *)
Definition their_root := mk_post "at://other/1" other None 5.
Definition reply_to_them := mk_post "at://me/4" me (reply_to "at://other/1") 40.
Definition reply_below := mk_post "at://me/5" me (reply_to "at://me/4") 50.

(** Replies of [me] whose parent the network does not deliver. *)
Definition reply_to_hidden := mk_post "at://me/6" me (reply_to "at://hidden/1") 60.
Definition reply_to_gone := mk_post "at://me/7" me (reply_to "at://gone/1") 70.

(** A post of [me] whose parent reference names the post itself. *)
Definition loop_post := mk_post "at://me/8" me (reply_to "at://me/8") 80.

(** The network: the posts above under their URI; ["at://hidden/1"] is
    answered with status 200 and a thread view that carries no post (a
    blocked or not-found view); any other URI is answered with an error
    status. *)
Definition net : Network := λ u,
  if bool_decide (u = "at://me/1") then Ok (Thread (Some my_root))
  else if bool_decide (u = "at://me/2") then Ok (Thread (Some my_reply))
  else if bool_decide (u = "at://me/3") then Ok (Thread (Some my_reply2))
  else if bool_decide (u = "at://other/1") then Ok (Thread (Some their_root))
  else if bool_decide (u = "at://me/4") then Ok (Thread (Some reply_to_them))
  else if bool_decide (u = "at://me/8") then Ok (Thread (Some loop_post))
  else if bool_decide (u = "at://hidden/1") then Ok (Thread None)
  else NotOk.

(** A self-only chain of any length: the post of depth [k] has a URI of
    [k + 1] letters and answers the post of depth [k - 1]; the network
    [chain_net] finds the post from the length of the URI. *)
Fixpoint chain_uri (k : nat) : string :=
  match k with
  | O => "x"
  | S k' => "x" +:+ chain_uri k'
  end.

Definition chain_post (k : nat) : BlueskyPost :=
  mk_post (chain_uri k) me
    (match k with O => None | S k' => reply_to (chain_uri k') end) (Z.of_nat k).

Definition chain_net : Network := λ u,
  match String.length u with
  | O => NotOk
  | S k => Ok (Thread (Some (chain_post k)))
  end.

(** A page for the builder: a reply and its parent and grandparent, all
    of the page, and a reply whose parent is not in the page. *)
Definition page : list BlueskyFeedItem :=
  [ entry reply_to_them; entry my_reply2; entry my_reply; entry my_root ].

(** A root with two replies, the later one first in the feed. *)
Definition post_r := mk_post "at://me/r" me None 10.
Definition post_c1 := mk_post "at://me/c1" me (reply_to "at://me/r") 20.
Definition post_c2 := mk_post "at://me/c2" me (reply_to "at://me/r") 15.
Definition thread_page : list BlueskyFeedItem :=
  [ entry post_r; entry post_c1; entry post_c2 ].

(** Two roots of one timestamp around a newer one, and two replies of
    one timestamp. *)
Definition post_a := mk_post "at://me/a" me None 7.
Definition post_b := mk_post "at://me/b" me None 9.
Definition post_c := mk_post "at://me/c" me None 7.
Definition post_a1 := mk_post "at://me/a1" me (reply_to "at://me/a") 8.
Definition post_a2 := mk_post "at://me/a2" me (reply_to "at://me/a") 8.
Definition tie_page : list BlueskyFeedItem :=
  [ entry post_a; entry post_a2; entry post_b; entry post_c; entry post_a1 ].

(** Cached threads, reduced to their URI. *)
Definition cached_uri (thread : string) : option string := Some thread.

(** A remote feed of two pages: A, B with cursor c1, then C. *)
Definition two_pages (handle : string) (cursor : option string)
  : option (list string * option string) :=
  match cursor with
  | None => Some (["A"; "B"], Some "c1")
  | Some c => if bool_decide (c = "c1") then Some (["C"], None) else None
  end.

Definition feed : list BlueskyFeedItem :=
  [ reposted my_reply2; entry reply_below; entry reply_to_them;
    entry my_reply2; entry my_reply; entry my_root ].

End Samples.

(** * Facts about lists *)

Module ListFacts.

Lemma filter_ext_in {A} (P Q : A → Prop) `{!∀ x, Decision (P x)} `{!∀ x, Decision (Q x)}
    (l : list A) :
  (∀ x, x ∈ l → P x ↔ Q x) → filter P l = filter Q l.
Proof.
  induction l as [|x l IH]; intros Hext; [done|].
  rewrite !filter_cons.
  rewrite IH by (intros y Hy; apply Hext; by right).
  destruct (decide (P x)) as [HP|HP], (decide (Q x)) as [HQ|HQ]; try done.
  - destruct HQ. apply Hext; [by left|done].
  - destruct HP. apply Hext; [by left|done].
Qed.

Lemma filter_fmap {A B} (f : A → B) (P : B → Prop) `{!∀ y, Decision (P y)} (l : list A) :
  filter P (f <$> l) = f <$> filter (λ x, P (f x)) l.
Proof.
  induction l as [|x l IH]; [done|].
  rewrite fmap_cons, !filter_cons, IH. by destruct (decide (P (f x))).
Qed.

Lemma StronglySorted_weaken {A} (R R' : A → A → Prop) (l : list A) :
  (∀ x y, R x y → R' x y) → StronglySorted R l → StronglySorted R' l.
Proof.
  intros Himpl. induction 1 as [|x l Hl IH Hx]; constructor; [done|].
  eapply Forall_impl; [exact Hx|]. by auto.
Qed.

End ListFacts.

(** * Properties of the filter *)

Module FilterProofs.
Import Bluesky FilterSpec ListFacts.

Section Walk.

Variable fetch : Network.
Variable userDid : string.

Lemma walk_fuel_mono n m cur acc b :
  walk fetch n userDid cur acc = Some b →
  (n ≤ m)%nat →
  walk fetch m userDid cur acc = Some b.
Proof.
  revert m cur acc. induction n as [|n IH]; intros m cur acc Hw Hle; [done|].
  destruct m as [|m]; [lia|]. simpl in *.
  destruct cur as [cur|]; [|done].
  case_bool_decide; [done|].
  destruct (reply (record cur)) as [r|]; [|done].
  destruct (fetch (parent_uri r)) as [| |[| |parent]]; try done.
  apply IH; [done|lia].
Qed.

Lemma walk_deterministic n m cur acc b c :
  walk fetch n userDid cur acc = Some b →
  walk fetch m userDid cur acc = Some c →
  b = c.
Proof.
  intros Hn Hm.
  apply (walk_fuel_mono _ (n `max` m)) in Hn; [|lia].
  apply (walk_fuel_mono _ (n `max` m)) in Hm; [|lia].
  congruence.
Qed.

Lemma only_user_singleton acc :
  acc ⊆ {[ userDid ]} →
  only_user (acc ∪ {[ userDid ]}) userDid = true.
Proof.
  intros Hacc. unfold only_user.
  assert (acc ∪ {[ userDid ]} = ({[ userDid ]} : gset string)) as -> by set_solver.
  rewrite size_singleton.
  apply andb_true_iff; split; apply bool_decide_eq_true; [done|set_solver].
Qed.



Lemma keeps_fuel_mono n m item b :
  keeps fetch userDid n item = Some b →
  (n ≤ m)%nat →
  keeps fetch userDid m item = Some b.
Proof.
  unfold keeps, isReplyInSelfOnlyThread. intros Hk Hle.
  destruct (has_repost_reason item); [done|].
  destruct (is_repost_record (post item)); [done|].
  destruct (text (record (post item))); [|done].
  destruct (reply (record (post item))); [|done].
  by apply (walk_fuel_mono n).
Qed.

(** The loop is the list filter of the per-entry verdict, as long as
    every verdict is reached. *)
Lemma filter_loop_keeps fuel (feed : list BlueskyFeedItem) acc :
  (∀ item, item ∈ feed → is_Some (keeps fetch userDid fuel item)) →
  filter_loop fetch fuel userDid feed acc
  = Some (acc ++ filter (λ item, keeps fetch userDid fuel item = Some true) feed).
Proof.
  revert acc. induction feed as [|item rest IH]; intros acc Hall.
  { simpl. by rewrite app_nil_r. }
  assert (Hrest : ∀ i, i ∈ rest → is_Some (keeps fetch userDid fuel i))
    by (intros i Hi; apply Hall; by right).
  destruct (Hall item) as [b Hb]; [by left|].
  rewrite filter_cons. simpl. unfold keeps in Hb |- *.
  destruct (has_repost_reason item).
  { rewrite decide_False by done. by apply IH. }
  destruct (is_repost_record (post item)).
  { rewrite decide_False by done. by apply IH. }
  destruct (text (record (post item))); last first.
  { rewrite decide_False by done. by apply IH. }
  destruct (reply (record (post item))).
  - rewrite Hb. destruct b.
    + rewrite decide_True by done. rewrite IH by done.
      by rewrite <- app_assoc.
    + rewrite decide_False by done. by apply IH.
  - rewrite decide_True by done. rewrite IH by done.
    by rewrite <- app_assoc.
Qed.

Lemma filter_loop_decided fuel (feed : list BlueskyFeedItem) acc out :
  filter_loop fetch fuel userDid feed acc = Some out →
  ∀ item, item ∈ feed → is_Some (keeps fetch userDid fuel item).
Proof.
  revert acc. induction feed as [|item rest IH]; intros acc Hout i Hi.
  { by apply elem_of_nil in Hi. }
  simpl in Hout. apply elem_of_cons in Hi as [->|Hi].
  - unfold keeps.
    destruct (has_repost_reason item); [by eexists|].
    destruct (is_repost_record (post item)); [by eexists|].
    destruct (text (record (post item))); [|by eexists].
    destruct (reply (record (post item))); [|by eexists].
    destruct (isReplyInSelfOnlyThread fetch fuel (post item) userDid); [by eexists|done].
  - unfold keeps in IH.
    destruct (has_repost_reason item); [by eapply IH|].
    destruct (is_repost_record (post item)); [by eapply IH|].
    destruct (text (record (post item))); [|by eapply IH].
    destruct (reply (record (post item))); [|by eapply IH].
    destruct (isReplyInSelfOnlyThread fetch fuel (post item) userDid) as [[]|];
      [by eapply IH|by eapply IH|done].
Qed.

(** What the filter returns, whenever it returns. *)
Lemma filter_result fuel feed out :
  filterPostsForSelfOnlyThreads fetch fuel feed userDid = Some out →
  out = filter (λ item, keeps fetch userDid fuel item = Some true) feed.
Proof.
  unfold filterPostsForSelfOnlyThreads. intros Hout.
  rewrite filter_loop_keeps in Hout by (by eapply filter_loop_decided).
  by injection Hout as <-.
Qed.

(** The filter returns as soon as every walk it starts returns. *)
Lemma filter_total (feed : list BlueskyFeedItem) :
  (∀ item, item ∈ feed →
     ∃ n, is_Some (isReplyInSelfOnlyThread fetch n (post item) userDid)) →
  ∃ n, ∀ fuel, (n ≤ fuel)%nat →
    ∀ item, item ∈ feed → is_Some (keeps fetch userDid fuel item).
Proof.
  induction feed as [|item rest IH]; intros Hall.
  { exists 0%nat. intros fuel _ i Hi. by apply elem_of_nil in Hi. }
  destruct IH as [n Hn]; [intros i Hi; apply Hall; by right|].
  destruct (Hall item) as [k [b Hk]]; [by left|].
  exists (n `max` k)%nat. intros fuel Hfuel i Hi.
  apply elem_of_cons in Hi as [->|Hi]; [|apply Hn; [lia|done]].
  unfold keeps.
  destruct (has_repost_reason item); [by eexists|].
  destruct (is_repost_record (post item)); [by eexists|].
  destruct (text (record (post item))); [|by eexists].
  destruct (reply (record (post item))); [|by eexists].
  exists b. apply (walk_fuel_mono k); [done|lia].
Qed.

(** When every walk returns, the filter returns, always the same list. *)
Lemma filter_returns (feed : list BlueskyFeedItem) :
  (∀ item, item ∈ feed →
     ∃ n, is_Some (isReplyInSelfOnlyThread fetch n (post item) userDid)) →
  ∃ n,
    (∀ item, item ∈ feed → is_Some (keeps fetch userDid n item)) ∧
    ∀ fuel, (n ≤ fuel)%nat →
      filterPostsForSelfOnlyThreads fetch fuel feed userDid
      = Some (filter (λ item, keeps fetch userDid n item = Some true) feed).
Proof.
  intros Hall. destruct (filter_total feed Hall) as [n Hn].
  exists n. split; [by apply Hn|]. intros fuel Hfuel.
  unfold filterPostsForSelfOnlyThreads.
  rewrite filter_loop_keeps by (by apply Hn). simpl. f_equal.
  apply filter_ext_in. intros item Hitem.
  destruct (Hn n (le_n _) item Hitem) as [b Hb].
  rewrite Hb, (keeps_fuel_mono n fuel item b Hb Hfuel). done.
Qed.

(** A lookup that fails rejects the reply: an error status, a rejected
    request, a body that is not JSON or has no [thread] member. *)
Lemma failed_lookup_rejected fuel p r acc :
  reply (record p) = Some r →
  fetch (parent_uri r) = Rejected ∨ fetch (parent_uri r) = NotOk ∨
  fetch (parent_uri r) = Ok BadJson ∨ fetch (parent_uri r) = Ok NoThread →
  walk fetch (S fuel) userDid (Some p) acc = Some false.
Proof.
  intros Hreply Hfetch. simpl. case_bool_decide; [done|]. rewrite Hreply.
  by destruct Hfetch as [Hf | [Hf | [Hf | Hf]]]; rewrite Hf.
Qed.

(** A lookup that succeeds with a thread view without [post] ends the
    loop as a root does: the reply of [userDid] is accepted. *)
Lemma lookup_without_post_accepts fuel p r :
  did (author p) = userDid →
  reply (record p) = Some r →
  fetch (parent_uri r) = Ok (Thread None) →
  isReplyInSelfOnlyThread fetch (2 + fuel) p userDid = Some true.
Proof.
  intros Hauth Hreply Hfetch. unfold isReplyInSelfOnlyThread. simpl.
  rewrite Hauth, bool_decide_eq_false_2 by auto. rewrite Hreply, Hfetch.
  replace (∅ ∪ {[userDid]}) with (∅ ∪ {[userDid]} : gset string) by done.
  by rewrite only_user_singleton.
Qed.

Lemma walk_step fuel p r q acc :
  did (author p) = userDid →
  reply (record p) = Some r →
  fetch (parent_uri r) = Ok (Thread q) →
  walk fetch (S fuel) userDid (Some p) acc = walk fetch fuel userDid q (acc ∪ {[ userDid ]}).
Proof.
  intros Hauth Hreply Hfetch. simpl.
  rewrite Hauth, bool_decide_eq_false_2 by auto. by rewrite Hreply, Hfetch.
Qed.

Lemma stops_returns n p :
  StopsAfter fetch userDid n p →
  ∀ fuel acc, (n + 2 ≤ fuel)%nat → is_Some (walk fetch fuel userDid (Some p) acc).
Proof.
  induction 1 as [p Hauth | p Hroot | p r Hreply Hfetch | n p r q Hauth Hreply Hfetch Hq IH];
    intros fuel acc Hfuel.
  - destruct fuel as [|fuel]; [lia|]. simpl. by rewrite bool_decide_eq_true_2.
  - destruct fuel as [|fuel]; [lia|]. simpl. case_bool_decide; [done|].
    by rewrite Hroot.
  - destruct fuel as [|[|fuel]]; [lia|lia|]. simpl. case_bool_decide; [done|].
    rewrite Hreply.
    destruct (fetch (parent_uri r)) as [| |[| |[q|]]]; try done.
    by destruct (Hfetch q).
  - destruct fuel as [|fuel]; [lia|]. simpl.
    rewrite bool_decide_eq_false_2 by auto. rewrite Hreply, Hfetch.
    apply IH. lia.
Qed.

Lemma stops_needs_fuel n p :
  StopsAfter fetch userDid n p →
  ∀ fuel acc, (fuel ≤ n)%nat → walk fetch fuel userDid (Some p) acc = None.
Proof.
  induction 1 as [p Hauth | p Hroot | p r Hreply Hfetch | n p r q Hauth Hreply Hfetch Hq IH];
    intros fuel acc Hfuel.
  - by replace fuel with 0%nat by lia.
  - by replace fuel with 0%nat by lia.
  - by replace fuel with 0%nat by lia.
  - destruct fuel as [|fuel]; [done|]. simpl.
    rewrite bool_decide_eq_false_2 by auto. rewrite Hreply, Hfetch.
    apply IH. lia.
Qed.

Lemma returns_stops fuel p acc b :
  walk fetch fuel userDid (Some p) acc = Some b →
  ∃ n, (n < fuel)%nat ∧ StopsAfter fetch userDid n p.
Proof.
  revert p acc. induction fuel as [|fuel IH]; intros p acc Hw; [done|].
  simpl in Hw. case_bool_decide as Hauth.
  { exists 0%nat. split; [lia|]. by apply stops_foreign. }
  destruct (reply (record p)) as [r|] eqn:Hreply; last first.
  { exists 0%nat. split; [lia|]. by apply stops_root. }
  destruct (fetch (parent_uri r)) as [| |[| |[q|]]] eqn:Hfetch;
    try (exists 0%nat; split; [lia|];
         apply (stops_lookup _ _ p r); [done|intros q'; by rewrite Hfetch]).
  destruct (IH _ _ Hw) as [n [Hn Hstop]].
  exists (S n). split; [lia|].
  apply (stops_above _ _ n p r q); try done.
Qed.

End Walk.

(** ** The claims about the filter *)


(** C10. The filter keeps a subsequence. Whenever the filter returns a
    list for a feed, the list is a sublist of the feed: its entries are
    entries of the feed, unchanged and in the order of the feed, none
    more often than in the feed; and the list does not depend on the
    number of steps allowed. The filter returns as soon as the walks of the
    entries return. *)
Theorem filter_subsequence (fetch : Network) (userDid : string)
    (feed : list BlueskyFeedItem) :
  (∀ fuel out,
     filterPostsForSelfOnlyThreads fetch fuel feed userDid = Some out →
     out `sublist_of` feed ∧
     ∀ fuel' out',
       filterPostsForSelfOnlyThreads fetch fuel' feed userDid = Some out' → out' = out) ∧
  ((∀ item, item ∈ feed →
      ∃ n, is_Some (isReplyInSelfOnlyThread fetch n (post item) userDid)) →
   ∃ n out, ∀ fuel, (n ≤ fuel)%nat →
     filterPostsForSelfOnlyThreads fetch fuel feed userDid = Some out).
Proof.
  split.
  - intros fuel out Hout.
    pose proof (filter_loop_decided fetch userDid _ _ _ _ Hout) as Hdec.
    apply filter_result in Hout as ->. split; [apply sublist_filter|].
    intros fuel' out' Hout'.
    pose proof (filter_loop_decided fetch userDid _ _ _ _ Hout') as Hdec'.
    apply filter_result in Hout' as ->.
    apply filter_ext_in. intros item Hitem.
    destruct (Hdec item Hitem) as [b Hb], (Hdec' item Hitem) as [b' Hb'].
    assert (b = b') as <-; [|by rewrite Hb, Hb'].
    pose proof (keeps_fuel_mono fetch userDid _ (fuel `max` fuel') _ _ Hb ltac:(lia)).
    pose proof (keeps_fuel_mono fetch userDid _ (fuel `max` fuel') _ _ Hb' ltac:(lia)).
    congruence.
  - intros Hall. destruct (filter_returns fetch userDid feed Hall) as [n [_ Hout]].
    by exists n, (filter (λ item, keeps fetch userDid n item = Some true) feed).
Qed.

Lemma sample_walks_return item :
  item ∈ Samples.feed →
  ∃ n, is_Some (isReplyInSelfOnlyThread Samples.net n (post item) Samples.me).
Proof.
  intros Hitem. exists 5%nat.
  repeat (apply elem_of_cons in Hitem as [->|Hitem]; [vm_compute; by eexists|]).
  by apply elem_of_nil in Hitem.
Qed.


Lemma filter_subsequence_witness :
  ∃ n out,
    (∀ fuel, (n ≤ fuel)%nat →
       filterPostsForSelfOnlyThreads Samples.net fuel Samples.feed Samples.me = Some out) ∧
    out `sublist_of` Samples.feed.
Proof.
  destruct (filter_subsequence Samples.net Samples.me Samples.feed) as [Hany Hret].
  destruct (Hret sample_walks_return) as (n & out & Hout).
  exists n, out. split; [exact Hout|]. exact (proj1 (Hany n out (Hout n (le_n n)))).
Defined.

(** The sample feed: the repost, the reply below a reply to another
    account and that reply are dropped; the own thread is kept in the
    order of the feed. *)
Example feed_filtered :
  filterPostsForSelfOnlyThreads Samples.net 5 Samples.feed Samples.me
  = Some [Samples.entry Samples.my_reply2; Samples.entry Samples.my_reply;
          Samples.entry Samples.my_root].
Proof. by vm_compute. Qed.

(** C2, at the input where the code departs from it. The parent of
    [reply_to_hidden] is answered with status 200 and a thread view
    without post: the lookup returns nothing, and the reply is kept. *)
Theorem missing_post_accepted :
  Samples.net "at://hidden/1" = Ok (Thread None) ∧
  ∀ k, filterPostsForSelfOnlyThreads Samples.net (2 + k)
         [Samples.entry Samples.reply_to_hidden] Samples.me
       = Some [Samples.entry Samples.reply_to_hidden].
Proof.
  split; [done|]. intros k.
  unfold filterPostsForSelfOnlyThreads, filter_loop.
  change (has_repost_reason (Samples.entry Samples.reply_to_hidden)) with false.
  change (is_repost_record (post (Samples.entry Samples.reply_to_hidden))) with false.
  cbn [Samples.entry Samples.reply_to_hidden Samples.mk_post post record text reply
       Samples.reply_to].
  by rewrite (lookup_without_post_accepts Samples.net Samples.me k
               Samples.reply_to_hidden _ eq_refl eq_refl eq_refl).
Qed.

(** C9, refuted as stated. The walk from a post whose parent reference
    names the post itself returns for no number of steps; and a self-only
    chain of sixty ancestors is walked to its root and accepted, not
    rejected at a depth of fifty. *)
Lemma walk_depth_counterexample :
  (∀ fuel, isReplyInSelfOnlyThread Samples.net fuel Samples.loop_post Samples.me = None) ∧
  isReplyInSelfOnlyThread Samples.chain_net 62 (Samples.chain_post 60) Samples.me
  = Some true.
Proof.
  split; [|by vm_compute].
  unfold isReplyInSelfOnlyThread. generalize (∅ : gset string).
  intros acc fuel. revert acc. induction fuel as [|fuel IH]; intros acc; [done|].
  rewrite (walk_step Samples.net Samples.me fuel Samples.loop_post _
             (Some Samples.loop_post) acc eq_refl eq_refl eq_refl).
  apply IH.
Qed.

(** C9, as the code has it. The walk has no depth limit. It returns
    exactly when the chain of parents reaches, after some number [n] of
    lookups that yield a post, a foreign author, a post without reply
    reference or a lookup that yields no post; it then needs all [n]
    lookups, however many they are, and returns after them. *)
Theorem walk_follows_whole_chain (fetch : Network) (userDid : string)
    (post : BlueskyPost) :
  (∀ n, StopsAfter fetch userDid n post →
     (∀ fuel, (n + 2 ≤ fuel)%nat →
        is_Some (isReplyInSelfOnlyThread fetch fuel post userDid)) ∧
     (∀ fuel, (fuel ≤ n)%nat →
        isReplyInSelfOnlyThread fetch fuel post userDid = None)) ∧
  (∀ fuel, is_Some (isReplyInSelfOnlyThread fetch fuel post userDid) →
     ∃ n, (n < fuel)%nat ∧ StopsAfter fetch userDid n post).
Proof.
  split.
  - intros n Hstop. split; intros fuel Hfuel.
    + by apply (stops_returns fetch userDid n).
    + by apply (stops_needs_fuel fetch userDid n).
  - intros fuel [b Hb]. by eapply returns_stops.
Qed.

Lemma walk_follows_whole_chain_witness :
  StopsAfter Samples.net Samples.me 2 Samples.my_reply2 ∧
  is_Some (isReplyInSelfOnlyThread Samples.net 4 Samples.my_reply2 Samples.me) ∧
  isReplyInSelfOnlyThread Samples.net 2 Samples.my_reply2 Samples.me = None ∧
  ∃ n, (n < 4)%nat ∧ StopsAfter Samples.net Samples.me n Samples.my_reply2.
Proof.
  assert (Hstop : StopsAfter Samples.net Samples.me 2 Samples.my_reply2).
  { eapply (stops_above _ _ 1 Samples.my_reply2 _ Samples.my_reply); [done..|].
    eapply (stops_above _ _ 0 Samples.my_reply _ Samples.my_root); [done..|].
    by apply stops_root. }
  destruct (walk_follows_whole_chain Samples.net Samples.me Samples.my_reply2)
    as [Hto Hfrom].
  destruct (Hto 2%nat Hstop) as [Hret Hnone].
  split; [done|]. split; [apply Hret; lia|]. split; [apply Hnone; lia|].
  apply Hfrom, Hret. lia.
Defined.

End FilterProofs.

(** * Properties of the sort *)

Module SortProofs.
Import Bluesky.

Section Sort.

Context {A : Type} (compareFn : A → A → Z).

Lemma sort_insert_perm x l : sort_insert compareFn x l ≡ₚ x :: l.
Proof.
  induction l as [|y l IH]; simpl; [done|].
  case_bool_decide; [done|]. rewrite IH. apply Permutation_swap.
Qed.

Lemma js_sort_perm l : js_sort compareFn l ≡ₚ l.
Proof.
  induction l as [|x l IH]; simpl; [done|].
  by rewrite sort_insert_perm, IH.
Qed.

Lemma js_sort_elem_of x l : x ∈ js_sort compareFn l ↔ x ∈ l.
Proof. by rewrite js_sort_perm. Qed.

Lemma js_sort_ext (compareFn' : A → A → Z) l :
  (∀ x y, compareFn x y = compareFn' x y) →
  js_sort compareFn l = js_sort compareFn' l.
Proof.
  intros Hext. induction l as [|x l IH]; simpl; [done|]. rewrite IH.
  generalize (js_sort compareFn' l). intros s.
  induction s as [|y s IHs]; simpl; [done|]. by rewrite Hext, IHs.
Qed.

(** The comparators of the builder order by a key. *)
Variable key : A → Z.
Hypothesis compare_key : ∀ x y, compareFn x y ≤ 0 ↔ key x ≤ key y.

Local Abbreviation by_key := (BuilderSpec.by_key key).

Lemma sort_insert_sorted x l :
  StronglySorted by_key l → StronglySorted by_key (sort_insert compareFn x l).
Proof.
  induction 1 as [|y l Hl IH Hy]; simpl.
  { repeat constructor. }
  case_bool_decide as Hxy.
  - apply compare_key in Hxy. constructor; [by constructor|].
    constructor; [done|].
    eapply Forall_impl; [exact Hy|]. unfold BuilderSpec.by_key. intros z Hz. lia.
  - constructor; [done|].
    rewrite sort_insert_perm. constructor; [|done].
    unfold BuilderSpec.by_key. rewrite compare_key in Hxy. lia.
Qed.

Lemma js_sort_sorted l : StronglySorted by_key (js_sort compareFn l).
Proof.
  induction l as [|x l IH]; simpl; [constructor|]. by apply sort_insert_sorted.
Qed.

(** Stability: the elements of one key keep their order. *)
Lemma sort_insert_stable k x l :
  filter (λ y, key y = k) (sort_insert compareFn x l) = filter (λ y, key y = k) (x :: l).
Proof.
  induction l as [|y l IH]; simpl; [done|].
  case_bool_decide as Hxy; [done|].
  rewrite compare_key in Hxy.
  rewrite filter_cons, IH, !filter_cons.
  destruct (decide (key y = k)), (decide (key x = k)); try done. lia.
Qed.

Lemma js_sort_stable k l :
  filter (λ y, key y = k) (js_sort compareFn l) = filter (λ y, key y = k) l.
Proof.
  induction l as [|x l IH]; simpl; [done|].
  by rewrite sort_insert_stable, !filter_cons, IH.
Qed.

Lemma js_sort_of_sorted l : StronglySorted by_key l → js_sort compareFn l = l.
Proof.
  induction 1 as [|x l Hl IH Hx]; simpl; [done|]. rewrite IH.
  destruct l as [|y l]; simpl; [done|].
  rewrite bool_decide_eq_true_2; [done|].
  apply compare_key. by apply Forall_cons_1 in Hx as [Hxy _].
Qed.

Lemma js_sort_idem l : js_sort compareFn (js_sort compareFn l) = js_sort compareFn l.
Proof. apply js_sort_of_sorted, js_sort_sorted. Qed.

(** Two sorted lists with the same elements of every key, in the same
    order, are one list. *)
Lemma stable_sorted_unique l1 l2 :
  StronglySorted by_key l1 → StronglySorted by_key l2 →
  (∀ k, filter (λ y, key y = k) l1 = filter (λ y, key y = k) l2) →
  l1 = l2.
Proof.
  intros H1. revert l2. induction H1 as [|x l1 Hl1 IH Hx]; intros l2 H2 Hsame.
  { destruct l2 as [|y l2]; [done|]. specialize (Hsame (key y)).
    by rewrite filter_nil, filter_cons_True in Hsame. }
  destruct H2 as [|y l2 Hl2 Hy].
  { specialize (Hsame (key x)). by rewrite filter_nil, filter_cons_True in Hsame. }
  assert (Hxy : key x = key y).
  { pose proof (Hsame (key x)) as Hkx. pose proof (Hsame (key y)) as Hky.
    rewrite filter_cons_True in Hkx by done.
    rewrite (filter_cons_True _ y) in Hky by done.
    assert (x ∈ filter (λ z, key z = key x) (y :: l2)) as [_ Hin]%list_elem_of_filter
      by (rewrite <- Hkx; by left).
    assert (y ∈ filter (λ z, key z = key y) (x :: l1)) as [_ Hin']%list_elem_of_filter
      by (rewrite Hky; by left).
    apply elem_of_cons in Hin as [->|Hin]; [done|].
    apply elem_of_cons in Hin' as [->|Hin']; [done|].
    rewrite Forall_forall in Hx, Hy.
    pose proof (Hx _ Hin'). pose proof (Hy _ Hin). unfold BuilderSpec.by_key in *. lia. }
  pose proof (Hsame (key x)) as Hk.
  rewrite filter_cons_True, (filter_cons_True _ y) in Hk by done.
  injection Hk as -> Hk. f_equal. apply IH; [done|]. intros k.
  destruct (decide (key y = k)) as [<-|Hne]; [done|].
  specialize (Hsame k). by rewrite !filter_cons_False in Hsame.
Qed.

(** The result of a stable sort does not depend on the algorithm: any
    sorted arrangement of [l] that keeps the order within each key is the
    one [js_sort] computes. *)
Lemma js_sort_unique l l' :
  StronglySorted by_key l' →
  (∀ k, filter (λ y, key y = k) l' = filter (λ y, key y = k) l) →
  l' = js_sort compareFn l.
Proof.
  intros Hsorted Hstable. apply stable_sorted_unique; [done|apply js_sort_sorted|].
  intros k. by rewrite js_sort_stable.
Qed.

End Sort.

End SortProofs.

(** * Properties of the thread builder *)

Module BuilderProofs.
Import Bluesky BuilderSpec ListFacts SortProofs.

(** ** The two passes *)

Lemma index_posts_snoc posts item :
  index_posts (posts ++ [item]) = <[uri_of item := new_node item]> (index_posts posts).
Proof. unfold index_posts. by rewrite foldl_app. Qed.

Lemma index_posts_None posts u :
  index_posts posts !! u = None ↔ u ∉ uri_of <$> posts.
Proof.
  induction posts as [|item posts IH] using rev_ind.
  { split; [intros _ []%elem_of_nil|done]. }
  rewrite index_posts_snoc, fmap_app, lookup_insert_None, IH. simpl.
  rewrite not_elem_of_app, list_elem_of_singleton. naive_solver.
Qed.

Lemma index_posts_lookup posts item :
  NoDup (uri_of <$> posts) →
  item ∈ posts →
  index_posts posts !! uri_of item = Some (new_node item).
Proof.
  induction posts as [|x posts IH] using rev_ind; intros Hnd Hitem.
  { by apply elem_of_nil in Hitem. }
  rewrite index_posts_snoc. rewrite fmap_app in Hnd. simpl in Hnd.
  apply NoDup_app in Hnd as (Hnd & Hx & _).
  apply elem_of_app in Hitem as [Hitem|Hitem%list_elem_of_singleton].
  - rewrite lookup_insert_ne; [by apply IH|].
    intros Heq. apply (Hx (uri_of item)); [|rewrite <- Heq; by left].
    apply list_elem_of_fmap. by exists item.
  - subst. apply lookup_insert_eq.
Qed.

Lemma index_posts_fresh posts u node :
  index_posts posts !! u = Some node →
  children node = [] ∧ isThreadRoot node = false.
Proof.
  revert node. induction posts as [|x posts IH] using rev_ind; intros node.
  { done. }
  rewrite index_posts_snoc. destruct (decide (uri_of x = u)) as [<-|Hne].
  - rewrite lookup_insert_eq. by intros [= <-].
  - rewrite lookup_insert_ne by done. apply IH.
Qed.

Section SecondPass.

Variable m0 : gmap string BlueskyThreadItem.
Hypothesis m0_fresh : ∀ u node,
  m0 !! u = Some node → children node = [] ∧ isThreadRoot node = false.

Lemma attach_all (done : list BlueskyFeedItem) :
  (∀ item, item ∈ done → is_Some (m0 !! uri_of item)) →
  (∀ u, postMap (foldl attach (start m0) done) !! u = built_node m0 done u <$> m0 !! u) ∧
  threadRoots (foldl attach (start m0) done)
  = uri_of <$> filter (λ item, is_root m0 item = true) done.
Proof.
  induction done as [|x done IH] using rev_ind; intros Hdom.
  { split; [|done]. intros u. simpl. destruct (m0 !! u) as [node|] eqn:Hu; [|done].
    simpl. f_equal. destruct (m0_fresh _ _ Hu) as [Hc Hr]. destruct node; simpl in *.
    subst. unfold built_node; simpl. f_equal. }
  destruct IH as [IHmap IHroots].
  { intros item Hitem. apply Hdom, elem_of_app. by left. }
  destruct (Hdom x) as [node0 Hx]; [apply elem_of_app; right; by left|].
  rewrite foldl_app. simpl. set (st := foldl attach (start m0) done) in *.
  assert (Hroot_case :
    is_root m0 x = true →
    (∀ p, parent_of x = Some p → m0 !! p = None) →
    (∀ u, postMap (add_root st (uri_of x) (built_node m0 done (uri_of x) node0)) !! u
          = built_node m0 (done ++ [x]) u <$> m0 !! u) ∧
    threadRoots (add_root st (uri_of x) (built_node m0 done (uri_of x) node0))
    = uri_of <$> filter (λ item, is_root m0 item = true) (done ++ [x])).
  { intros Hroot Hparent. split.
    - intros u. simpl. destruct (decide (uri_of x = u)) as [<-|Hne].
      + rewrite lookup_insert_eq, Hx. simpl. f_equal.
        unfold built_node, mark_root; simpl. f_equal.
        * rewrite filter_app, filter_cons, filter_nil.
          destruct (decide (parent_of x = Some (uri_of x))) as [Hp|Hp];
            [|by rewrite app_nil_r].
          apply Hparent in Hp. congruence.
        * symmetry. apply bool_decide_eq_true.
          rewrite filter_app, fmap_app, filter_cons, decide_True by done.
          apply elem_of_app. right. by left.
      + rewrite lookup_insert_ne, IHmap by done.
        destruct (m0 !! u) as [node|] eqn:Hu; [|done]. simpl. f_equal.
        unfold built_node; simpl. f_equal.
        * rewrite filter_app, filter_cons, filter_nil.
          destruct (decide (parent_of x = Some u)) as [Hp|Hp];
            [|by rewrite app_nil_r].
          apply Hparent in Hp. congruence.
        * apply bool_decide_ext.
          rewrite filter_app, fmap_app, filter_cons, decide_True by done.
          rewrite elem_of_app. simpl. rewrite list_elem_of_singleton. naive_solver.
    - simpl. rewrite IHroots, filter_app, fmap_app, filter_cons, decide_True by done.
      done. }
  unfold attach. fold st. change (uri (post x)) with (uri_of x).
  rewrite IHmap, Hx. simpl.
  destruct (reply (record (post x))) as [r|] eqn:Hreply.
  - rewrite IHmap.
    destruct (m0 !! parent_uri r) as [parent0|] eqn:Hparent; simpl.
    + assert (Hnot : is_root m0 x ≠ true).
      { unfold is_root, parent_of. rewrite Hreply. simpl.
        rewrite bool_decide_eq_false_2; [done|]. by rewrite Hparent. }
      split.
      * intros u. destruct (decide (parent_uri r = u)) as [<-|Hne].
        -- rewrite lookup_insert_eq, Hparent. simpl. f_equal.
           unfold built_node, push_child; simpl. f_equal.
           ++ rewrite filter_app, fmap_app, filter_cons, decide_True; [done|].
              unfold parent_of. by rewrite Hreply.
           ++ apply bool_decide_ext.
              by rewrite filter_app, filter_cons, decide_False, filter_nil, app_nil_r.
        -- rewrite lookup_insert_ne, IHmap by done.
           destruct (m0 !! u) as [node|] eqn:Hu; [|done]. simpl. f_equal.
           unfold built_node; simpl. f_equal.
           ++ rewrite filter_app, filter_cons, decide_False, filter_nil, app_nil_r;
                [done|].
              unfold parent_of. rewrite Hreply. simpl. congruence.
           ++ apply bool_decide_ext.
              by rewrite filter_app, filter_cons, decide_False, filter_nil, app_nil_r.
      * rewrite IHroots.
        by rewrite filter_app, filter_cons, decide_False, filter_nil, app_nil_r.
    + apply Hroot_case.
      * unfold is_root, parent_of. rewrite Hreply. simpl.
        by apply bool_decide_eq_true.
      * unfold parent_of. rewrite Hreply. simpl. by intros p [= <-].
  - apply Hroot_case.
    + unfold is_root, parent_of. by rewrite Hreply.
    + unfold parent_of. by rewrite Hreply.
Qed.

End SecondPass.

(** ** The sorting phase *)

Lemma oldest_first_key m x y : oldest_first m x y ≤ 0 ↔ time_of m x ≤ time_of m y.
Proof. unfold oldest_first. lia. Qed.

Lemma newest_first_key m x y :
  newest_first m x y ≤ 0 ↔ - time_of m x ≤ - time_of m y.
Proof. unfold newest_first. lia. Qed.

Lemma sort_each_None step refs : sort_each step None refs = None.
Proof. induction refs as [|r refs IH]; [done|]. apply IH. Qed.

Lemma sort_each_cons step m r refs :
  sort_each step (Some m) (r :: refs) = sort_each step (step m r) refs.
Proof. done. Qed.

Lemma sort_each_mono (step1 step2 : gmap string BlueskyThreadItem → string →
                                    option (gmap string BlueskyThreadItem)) refs acc m' :
  (∀ m r m', step1 m r = Some m' → step2 m r = Some m') →
  sort_each step1 acc refs = Some m' →
  sort_each step2 acc refs = Some m'.
Proof.
  intros Hstep. revert acc. induction refs as [|r refs IH]; intros acc; [done|].
  destruct acc as [m|]; [|by rewrite sort_each_None].
  rewrite !sort_each_cons. intros Hfold.
  destruct (step1 m r) as [m1|] eqn:H1; [|by rewrite sort_each_None in Hfold].
  rewrite (Hstep _ _ _ H1). by apply IH.
Qed.

Lemma sortThreadChildren_unfold fuel m thread :
  sortThreadChildren (S fuel) m thread
  = match m !! thread with
    | None => Some m
    | Some node =>
      sort_each (sortThreadChildren fuel)
        (Some (<[thread := set_children node
                             (js_sort (oldest_first m) (children node))]> m))
        (js_sort (oldest_first m) (children node))
    end.
Proof. done. Qed.

Lemma sortThreadChildren_mono n n' m u m' :
  sortThreadChildren n m u = Some m' →
  (n ≤ n')%nat →
  sortThreadChildren n' m u = Some m'.
Proof.
  revert n' m u m'. induction n as [|n IH]; intros n' m u m' Hs Hle; [done|].
  destruct n' as [|n']; [lia|]. rewrite sortThreadChildren_unfold in Hs |- *.
  destruct (m !! u) as [node|]; [|done].
  eapply sort_each_mono; [|exact Hs]. intros m1 r m2 Hr. apply (IH n'); [done|lia].
Qed.

Section SortPhase.

Variable m0 : gmap string BlueskyThreadItem.

Lemma partly_refl : partly_sorted m0 m0.
Proof. intros u. destruct (m0 !! u); constructor. naive_solver. Qed.

Lemma partly_time m u : partly_sorted m0 m → time_of m u = time_of m0 u.
Proof.
  intros Hm. unfold time_of. destruct (Hm u) as [n0 n (Hp & _)|]; [|done].
  by rewrite Hp.
Qed.

Lemma partly_children m u :
  partly_sorted m0 m →
  children_of m u = children_of m0 u ∨ children_of m u = sorted_kids m0 u.
Proof.
  intros Hm. unfold sorted_kids, children_of.
  destruct (Hm u) as [n0 n (_ & _ & _ & Hc)|]; [done|by left].
Qed.

Lemma partly_sort_children m u :
  partly_sorted m0 m →
  js_sort (oldest_first m) (children_of m u) = sorted_kids m0 u.
Proof.
  intros Hm.
  rewrite (js_sort_ext (oldest_first m) (oldest_first m0)); last first.
  { intros x y. unfold oldest_first. by rewrite !(partly_time m) by done. }
  destruct (partly_children m u Hm) as [->| ->]; [done|].
  apply (js_sort_idem _ (time_of m0)), oldest_first_key.
Qed.

Lemma partly_elem_of m u c :
  partly_sorted m0 m → c ∈ children_of m u ↔ c ∈ children_of m0 u.
Proof.
  intros Hm. destruct (partly_children m u Hm) as [->| ->]; [done|].
  apply js_sort_elem_of.
Qed.

Lemma partly_reach m u v : partly_sorted m0 m → reach m u v ↔ reach m0 u v.
Proof.
  intros Hm. split; induction 1 as [u|u c v Hc Hr IH]; try by constructor.
  - apply (reach_below _ u c v); [|done]. by apply (partly_elem_of m).
  - apply (reach_below _ u c v); [|done]. by apply (partly_elem_of m).
Qed.

Lemma partly_insert m u node :
  partly_sorted m0 m →
  m !! u = Some node →
  partly_sorted m0 (<[u := set_children node (sorted_kids m0 u)]> m).
Proof.
  intros Hm Hu v. destruct (decide (u = v)) as [<-|Hne].
  - rewrite lookup_insert_eq. specialize (Hm u). rewrite Hu in Hm.
    inversion Hm as [n0 n (Hp & Hr & Hf & Hc) Heq0|]; subst.
    constructor. simpl. repeat split; try done. right.
    unfold sorted_kids, children_of. by rewrite <- Heq0.
  - rewrite lookup_insert_ne by done. apply Hm.
Qed.

Section Each.

Variable step : gmap string BlueskyThreadItem → string →
                option (gmap string BlueskyThreadItem).
Hypothesis step_spec : ∀ m r m',
  partly_sorted m0 m → step m r = Some m' → sorts_below m0 r m m'.

Lemma sort_each_spec refs m m' :
  partly_sorted m0 m →
  sort_each step (Some m) refs = Some m' →
  partly_sorted m0 m' ∧
  (∀ v, children_of m v = sorted_kids m0 v → children_of m' v = sorted_kids m0 v) ∧
  (∀ r v, r ∈ refs → reach m0 r v → children_of m' v = sorted_kids m0 v).
Proof.
  revert m. induction refs as [|r refs IH]; intros m Hm Hfold.
  { injection Hfold as <-. split; [done|]. split; [done|].
    intros r v Hr. by apply elem_of_nil in Hr. }
  rewrite sort_each_cons in Hfold.
  destruct (step m r) as [m1|] eqn:Hstep; [|by rewrite sort_each_None in Hfold].
  destruct (step_spec _ _ _ Hm Hstep) as (Hm1 & Hkeep1 & Hbelow1).
  destruct (IH m1 Hm1 Hfold) as (Hm' & Hkeep & Hbelow).
  split; [done|]. split; [by auto|].
  intros r' v [->|Hr']%elem_of_cons Hreach; [by auto|by eauto].
Qed.

Variable good : string → Prop.
Hypothesis step_returns : ∀ m r,
  partly_sorted m0 m → good r → is_Some (step m r).

Lemma sort_each_returns refs m :
  partly_sorted m0 m →
  (∀ r, r ∈ refs → good r) →
  is_Some (sort_each step (Some m) refs).
Proof.
  revert m. induction refs as [|r refs IH]; intros m Hm Hgood; [by eexists|].
  rewrite sort_each_cons.
  destruct (step_returns m r Hm) as [m1 Hstep]; [apply Hgood; by left|].
  rewrite Hstep. apply IH.
  - by destruct (step_spec _ _ _ Hm Hstep).
  - intros r' Hr'. apply Hgood. by right.
Qed.

End Each.

Lemma sortThreadChildren_spec fuel m u m' :
  partly_sorted m0 m →
  sortThreadChildren fuel m u = Some m' →
  sorts_below m0 u m m'.
Proof.
  revert m u m'. induction fuel as [|fuel IH]; intros m u m' Hm Hs; [done|].
  rewrite sortThreadChildren_unfold in Hs.
  destruct (m !! u) as [node|] eqn:Hu.
  - assert (Hkids : children_of m u = children node)
      by (unfold children_of; by rewrite Hu).
    rewrite <- Hkids, (partly_sort_children m u Hm) in Hs.
    pose proof (partly_insert m u node Hm Hu) as Hm1.
    destruct (sort_each_spec _ IH _ _ _ Hm1 Hs) as (Hm' & Hkeep & Hbelow).
    assert (Hu1 : children_of (<[u:=set_children node (sorted_kids m0 u)]> m) u
                  = sorted_kids m0 u)
      by (unfold children_of; by rewrite lookup_insert_eq).
    split; [done|]. split.
    + intros v Hv. apply Hkeep. destruct (decide (u = v)) as [<-|Hne]; [done|].
      unfold children_of in Hv |- *. by rewrite lookup_insert_ne.
    + intros v Hreach. inversion Hreach as [|u' c v' Hc Hcv]; subst; [by auto|].
      apply (Hbelow c); [|done]. unfold sorted_kids. by apply js_sort_elem_of.
  - injection Hs as <-. split; [done|]. split; [done|].
    assert (Hnone : children_of m0 u = []).
    { unfold children_of. specialize (Hm u). rewrite Hu in Hm.
      by inversion Hm. }
    intros v Hreach. inversion Hreach as [|u' c v' Hc Hcv]; subst.
    + unfold sorted_kids. rewrite Hnone. unfold children_of. by rewrite Hu.
    + rewrite Hnone in Hc. by apply elem_of_nil in Hc.
Qed.

Lemma sortThreadChildren_returns n m u :
  partly_sorted m0 m →
  height_le m0 n u →
  is_Some (sortThreadChildren n m u).
Proof.
  revert m u. induction n as [|n IH]; intros m u Hm Hh; [by inversion Hh|].
  rewrite sortThreadChildren_unfold.
  destruct (m !! u) as [node|] eqn:Hu; [|by eexists].
  assert (Hkids : children_of m u = children node)
    by (unfold children_of; by rewrite Hu).
  rewrite <- Hkids, (partly_sort_children m u Hm).
  apply (sort_each_returns _ (sortThreadChildren_spec n) (height_le m0 n)).
  - intros m1 r Hm1 Hr. by apply IH.
  - by apply partly_insert.
  - intros c Hc. inversion Hh as [n' u' Hall]; subst. apply Hall.
    unfold sorted_kids in Hc. by apply js_sort_elem_of in Hc.
Qed.

Lemma height_le_mono n n' u :
  height_le m0 n u → (n ≤ n')%nat → height_le m0 n' u.
Proof.
  intros Hh. revert n'. induction Hh as [n u Hall IH]; intros n' Hle.
  destruct n' as [|n']; [lia|]. constructor. intros c Hc. apply IH; [done|lia].
Qed.

End SortPhase.

(** ** The built page *)

Section Page.

Variable posts : list BlueskyFeedItem.

Let m0 := index_posts posts.
Let mb := postMap (build posts).
Let roots0 := threadRoots (build posts).

Lemma page_indexed item : item ∈ posts → is_Some (m0 !! uri_of item).
Proof.
  intros Hitem. destruct (m0 !! uri_of item) eqn:Hu; [by eexists|].
  apply index_posts_None in Hu. destruct Hu.
  apply list_elem_of_fmap. by exists item.
Qed.

Lemma build_lookup u : mb !! u = built_node m0 posts u <$> m0 !! u.
Proof.
  apply (attach_all m0 (index_posts_fresh posts) posts). apply page_indexed.
Qed.

Lemma build_roots :
  roots0 = uri_of <$> filter (λ item, is_root m0 item = true) posts.
Proof.
  apply (attach_all m0 (index_posts_fresh posts) posts). apply page_indexed.
Qed.

Lemma is_root_page item : is_root m0 item = is_root_entry posts item.
Proof.
  unfold is_root, is_root_entry. destruct (parent_of item) as [p|]; [|done].
  apply bool_decide_ext, index_posts_None.
Qed.

Lemma build_children u :
  is_Some (m0 !! u) →
  children_of mb u = uri_of <$> filter (λ item, parent_of item = Some u) posts.
Proof.
  intros [node Hu]. unfold children_of. by rewrite build_lookup, Hu.
Qed.

Lemma build_children_None u : m0 !! u = None → children_of mb u = [].
Proof. intros Hu. unfold children_of. by rewrite build_lookup, Hu. Qed.

Lemma child_entry u c :
  c ∈ children_of mb u →
  ∃ item, item ∈ posts ∧ uri_of item = c ∧ parent_of item = Some u ∧ is_Some (m0 !! u).
Proof.
  destruct (m0 !! u) as [node|] eqn:Hu.
  - rewrite build_children by (by eexists).
    intros (item & -> & [Hp Hitem]%list_elem_of_filter)%list_elem_of_fmap.
    by exists item.
  - rewrite build_children_None by done. by intros ?%elem_of_nil.
Qed.

Lemma root_entry r :
  r ∈ roots0 → ∃ item, item ∈ posts ∧ uri_of item = r ∧ is_root m0 item = true.
Proof.
  rewrite build_roots.
  intros (item & -> & [Hp Hitem]%list_elem_of_filter)%list_elem_of_fmap.
  by exists item.
Qed.

Lemma in_page_indexed u : u ∈ uri_of <$> posts ↔ is_Some (m0 !! u).
Proof.
  rewrite <- not_eq_None_Some. unfold m0. rewrite index_posts_None.
  split; [by auto|]. apply dec_stable.
Qed.

Lemma root_entry_iff item :
  is_root_entry posts item = true ↔ ¬ parent_in_page posts item.
Proof.
  unfold is_root_entry, parent_in_page. destruct (parent_of item) as [p|].
  - rewrite bool_decide_eq_true. split.
    + intros Hp (p' & [= <-] & Hin). done.
    + intros Hno Hin. apply Hno. by exists p.
  - split; [|done]. by intros _ (p' & ? & _).
Qed.

(** What the builder returns, whenever it returns. *)
Lemma group_result fuel userDid forest :
  groupPostsIntoThreads fuel posts userDid = Some forest →
  built_from posts forest.
Proof.
  unfold groupPostsIntoThreads, built_from. fold mb roots0.
  change (foldl _ (Some mb) ?l) with (sort_each (sortThreadChildren fuel) (Some mb) l).
  destruct (sort_each _ _ _) as [m'|] eqn:Hsort; [|done]. intros [= <-]. simpl.
  destruct (sort_each_spec mb (sortThreadChildren fuel)
              (sortThreadChildren_spec mb fuel) _ _ _ (partly_refl mb) Hsort)
    as (Hpart & _ & Hbelow).
  split; [done|]. split; [done|].
  intros r v Hr. apply Hbelow. by apply js_sort_elem_of.
Qed.

Lemma forest_root_elem (forest : ThreadForest) r :
  built_from posts forest →
  r ∈ roots forest ↔
  ∃ item, item ∈ posts ∧ uri_of item = r ∧ is_root_entry posts item = true.
Proof.
  intros (-> & _). fold mb roots0.
  rewrite js_sort_elem_of, build_roots, list_elem_of_fmap.
  split; intros (item & H1 & H2); exists item.
  - apply list_elem_of_filter in H2 as [H2 H3]. by rewrite <- is_root_page.
  - destruct H2 as [H2 H3]. split; [done|].
    apply list_elem_of_filter. by rewrite is_root_page.
Qed.

Lemma forest_child_elem (forest : ThreadForest) p c :
  built_from posts forest →
  c ∈ children_of (nodes forest) p ↔
  ∃ item, item ∈ posts ∧ uri_of item = c ∧ parent_of item = Some p ∧
          p ∈ uri_of <$> posts.
Proof.
  intros (_ & Hpart & _). fold mb in Hpart.
  rewrite (partly_elem_of mb (nodes forest) p c Hpart). split.
  - intros (item & H1 & H2 & H3 & H4)%child_entry. exists item.
    by rewrite in_page_indexed.
  - intros (item & H1 & H2 & H3 & H4). rewrite build_children.
    + apply list_elem_of_fmap. exists item. split; [done|].
      by apply list_elem_of_filter.
    + by apply in_page_indexed.
Qed.

Lemma forest_flag (forest : ThreadForest) r :
  built_from posts forest →
  (∃ item, item ∈ posts ∧ uri_of item = r ∧ is_root_entry posts item = true) →
  ∃ node, nodes forest !! r = Some node ∧ isThreadRoot node = true.
Proof.
  intros (_ & Hpart & _) (item & Hitem & <- & Hroot). fold mb in Hpart.
  destruct (page_indexed item Hitem) as [n0 H0].
  pose proof (build_lookup (uri_of item)) as Hb. rewrite H0 in Hb.
  specialize (Hpart (uri_of item)). rewrite Hb in Hpart.
  inversion Hpart as [n1 n (Hp & Hr & Hf & Hc) Heq1 Heq2|]; subst.
  exists n. split; [done|]. rewrite Hf. simpl.
  apply bool_decide_eq_true, list_elem_of_fmap. exists item. split; [done|].
  apply list_elem_of_filter. by rewrite is_root_page.
Qed.

Lemma reach_in_page r u :
  r ∈ uri_of <$> posts → reach mb r u → u ∈ uri_of <$> posts.
Proof.
  intros Hr Hreach. induction Hreach as [u|u c v Hc Hcv IH]; [done|].
  apply IH. apply child_entry in Hc as (item & Hitem & <- & _).
  apply list_elem_of_fmap. by exists item.
Qed.

Lemma in_forest_built (forest : ThreadForest) u :
  built_from posts forest →
  in_forest forest u →
  (∃ r, r ∈ roots0 ∧ reach mb r u) ∧ u ∈ uri_of <$> posts.
Proof.
  intros (Hroots & Hpart & _) (r & Hr & Hreach). fold mb roots0 in Hroots, Hpart.
  rewrite Hroots in Hr. apply js_sort_elem_of in Hr.
  apply (partly_reach mb (nodes forest) r u Hpart) in Hreach.
  split; [by exists r|]. apply (reach_in_page r); [|done].
  apply root_entry in Hr as (item & Hitem & <- & _).
  apply list_elem_of_fmap. by exists item.
Qed.

Lemma forest_kids (forest : ThreadForest) u :
  built_from posts forest →
  in_forest forest u →
  children_of (nodes forest) u
  = js_sort (oldest_first mb)
      (uri_of <$> filter (λ item, parent_of item = Some u) posts).
Proof.
  intros Hbuilt [(r & Hr & Hreach) Hu]%in_forest_built; [|done].
  destruct Hbuilt as (_ & _ & Hbelow). fold mb roots0 in Hbelow.
  rewrite (Hbelow r u Hr Hreach). unfold sorted_kids.
  rewrite build_children; [done|]. by apply in_page_indexed.
Qed.

Hypothesis unique_uris : NoDup (uri_of <$> posts).

Lemma same_uri item item' :
  item ∈ posts → item' ∈ posts → uri_of item = uri_of item' → item = item'.
Proof.
  intros Hi Hi' Heq.
  pose proof (index_posts_lookup posts item unique_uris Hi) as H1.
  pose proof (index_posts_lookup posts item' unique_uris Hi') as H2.
  rewrite Heq, H2 in H1. injection H1 as Hp Hr.
  destruct item, item'; simpl in *; by subst.
Qed.

Lemma root_not_child r u : r ∈ roots0 → r ∈ children_of mb u → False.
Proof.
  intros (item & Hitem & <- & Hroot)%root_entry
         (item' & Hitem' & Heq & Hparent & [node Hu])%child_entry.
  apply same_uri in Heq as ->; [|done..].
  unfold is_root in Hroot. rewrite Hparent in Hroot.
  apply bool_decide_eq_true in Hroot. congruence.
Qed.

Lemma one_parent c u u' : c ∈ children_of mb u → c ∈ children_of mb u' → u = u'.
Proof.
  intros (item & Hitem & <- & Hparent & _)%child_entry
         (item' & Hitem' & Heq & Hparent' & _)%child_entry.
  apply same_uri in Heq as ->; [|done..]. congruence.
Qed.

Lemma path_up_unique l1 l2 u :
  path_up mb roots0 l1 u → path_up mb roots0 l2 u → l1 = l2.
Proof.
  intros H1. revert l2. induction H1 as [r Hr|l u c Hc Hl IH]; intros l2 H2.
  - inversion H2 as [|l' u' c' Hc' Hl']; subst; [done|].
    destruct (root_not_child _ _ Hr Hc').
  - inversion H2 as [r Hr|l' u' c' Hc' Hl']; subst.
    + destruct (root_not_child _ _ Hr Hc).
    + pose proof (one_parent _ _ _ Hc Hc') as <-. f_equal. by apply IH.
Qed.

Lemma path_up_suffix l u w :
  path_up mb roots0 l u → w ∈ l →
  ∃ l', path_up mb roots0 l' w ∧ (length l' ≤ length l)%nat.
Proof.
  induction 1 as [r Hr|l u c Hc Hl IH]; intros Hw.
  - apply list_elem_of_singleton in Hw as ->. exists [r]. split; [by constructor|done].
  - apply elem_of_cons in Hw as [->|Hw].
    + exists (c :: l). split; [by econstructor|done].
    + destruct (IH Hw) as (l' & Hl' & Hlen). exists l'. split; [done|]. simpl. lia.
Qed.

Lemma path_up_in_page l u w : path_up mb roots0 l u → w ∈ l → w ∈ uri_of <$> posts.
Proof.
  induction 1 as [r Hr|l u c Hc Hl IH]; intros Hw.
  - apply list_elem_of_singleton in Hw as ->.
    apply root_entry in Hr as (item & Hitem & <- & _).
    apply list_elem_of_fmap. by exists item.
  - apply elem_of_cons in Hw as [->|Hw]; [|by apply IH].
    apply child_entry in Hc as (item & Hitem & <- & _).
    apply list_elem_of_fmap. by exists item.
Qed.

Lemma path_up_NoDup l u : path_up mb roots0 l u → NoDup l.
Proof.
  induction 1 as [r Hr|l u c Hc Hl IH].
  - apply NoDup_singleton.
  - apply NoDup_cons. split; [|done]. intros Hin.
    destruct (path_up_suffix _ _ _ Hl Hin) as (l' & Hl' & Hlen).
    assert (Hpath : path_up mb roots0 (c :: l) c) by (by econstructor).
    rewrite (path_up_unique _ _ _ Hl' Hpath) in Hlen. simpl in Hlen. lia.
Qed.

Lemma path_up_length l u : path_up mb roots0 l u → (length l ≤ length posts)%nat.
Proof.
  intros Hl. rewrite <- (length_fmap uri_of posts).
  apply submseteq_length, NoDup_submseteq; [by eapply path_up_NoDup|].
  intros w Hw. by eapply path_up_in_page.
Qed.

Lemma path_up_height k l u :
  path_up mb roots0 l u →
  (length posts ≤ length l + k)%nat →
  height_le mb (S k) u.
Proof.
  revert l u. induction k as [|k IH]; intros l u Hl Hlen.
  - constructor. intros c Hc.
    assert (Hpath : path_up mb roots0 (c :: l) c) by (by econstructor).
    apply path_up_length in Hpath. simpl in Hpath. lia.
  - constructor. intros c Hc. apply (IH (c :: l)); [by econstructor|]. simpl. lia.
Qed.

Lemma root_height r : r ∈ roots0 → height_le mb (length posts) r.
Proof.
  intros Hr. assert (Hpath : path_up mb roots0 [r] r) by (by constructor).
  pose proof (path_up_length _ _ Hpath) as Hlen. simpl in Hlen.
  destruct (length posts) as [|n] eqn:HN; [lia|].
  apply (path_up_height n [r]); [done|]. simpl. lia.
Qed.

(** With distinct URIs the builder returns. *)
Lemma group_returns userDid :
  ∃ forest, ∀ fuel, (length posts ≤ fuel)%nat →
    groupPostsIntoThreads fuel posts userDid = Some forest.
Proof.
  destruct (sort_each_returns mb (sortThreadChildren (length posts))
              (sortThreadChildren_spec mb (length posts))
              (height_le mb (length posts))
              (λ m r Hm Hr, sortThreadChildren_returns mb _ m r Hm Hr)
              (js_sort (newest_first mb) roots0) mb (partly_refl mb))
    as [m' Hm'].
  { intros r Hr%js_sort_elem_of. by apply root_height. }
  exists {| roots := js_sort (newest_first mb) roots0; nodes := m' |}.
  intros fuel Hfuel. unfold groupPostsIntoThreads. fold mb roots0.
  change (foldl _ (Some mb) ?l) with (sort_each (sortThreadChildren fuel) (Some mb) l).
  rewrite (sort_each_mono (sortThreadChildren (length posts)) (sortThreadChildren fuel)
             _ _ m'); [done| |done].
  intros m r m1 Hr. by apply (sortThreadChildren_mono (length posts)).
Qed.

Lemma forest_node (forest : ThreadForest) item :
  built_from posts forest →
  item ∈ posts →
  ∃ node, nodes forest !! uri_of item = Some node ∧
          node_post node = post item ∧ node_reason node = reason item ∧
          isThreadRoot node = is_root_entry posts item.
Proof.
  intros (_ & Hpart & _) Hitem. fold mb in Hpart.
  pose proof (index_posts_lookup posts item unique_uris Hitem) as H0.
  pose proof (build_lookup (uri_of item)) as Hb. fold m0 in H0. rewrite H0 in Hb.
  specialize (Hpart (uri_of item)). rewrite Hb in Hpart.
  inversion Hpart as [n0 n (Hp & Hr & Hf & Hc) Heq1 Heq2|]; subst.
  exists n. repeat split; try done.
  rewrite Hf. simpl. destruct (is_root_entry posts item) eqn:Hroot.
  - apply bool_decide_eq_true, list_elem_of_fmap. exists item. split; [done|].
    apply list_elem_of_filter. by rewrite is_root_page.
  - apply bool_decide_eq_false.
    intros (item' & Heq & [Hr' Hitem']%list_elem_of_filter)%list_elem_of_fmap.
    apply same_uri in Heq as <-; [|done..]. rewrite is_root_page in Hr'. congruence.
Qed.

Lemma forest_time (forest : ThreadForest) item :
  built_from posts forest → item ∈ posts →
  time_of (nodes forest) (uri_of item) = indexedAt (post item).
Proof.
  intros Hbuilt Hitem.
  destruct (forest_node forest item Hbuilt Hitem) as (node & Hnode & Hp & _).
  unfold time_of. by rewrite Hnode, Hp.
Qed.

Lemma by_time_filter (forest : ThreadForest) t (P : BlueskyFeedItem → Prop)
    `{!∀ item, Decision (P item)} :
  built_from posts forest →
  filter (λ ref, time_of (nodes forest) ref = t) (uri_of <$> filter P posts)
  = uri_of <$> filter (λ item, P item ∧ indexedAt (post item) = t) posts.
Proof.
  intros Hbuilt. rewrite filter_fmap, list_filter_filter. f_equal.
  apply filter_ext_in. intros item Hitem.
  rewrite (forest_time forest item Hbuilt Hitem). naive_solver.
Qed.

End Page.

(** ** The claims about the builder *)

(** C3. Attachment. Whenever the builder returns a forest for a page,
    an entry that is a reply to a post of the same page is among the
    children of the node of that post, and every other entry (no reply,
    or a reply to a post that is not in the page) is among the roots, its
    node flagged as thread root. For a page of entries with distinct URIs
    the builder does return; every entry then has its own node, a reply
    to a post of the page is no root and not flagged, and a root is
    nobody's child. *)
Theorem thread_attachment (posts : list BlueskyFeedItem) (userDid : string) :
  (∀ fuel forest,
     groupPostsIntoThreads fuel posts userDid = Some forest →
     ∀ item, item ∈ posts →
       (∀ p, parent_of item = Some p → p ∈ uri_of <$> posts →
          uri_of item ∈ children_of (nodes forest) p) ∧
       (¬ parent_in_page posts item →
          uri_of item ∈ roots forest ∧
          ∃ node, nodes forest !! uri_of item = Some node ∧ isThreadRoot node = true)) ∧
  (NoDup (uri_of <$> posts) →
   ∃ forest,
     (∀ fuel, (length posts ≤ fuel)%nat →
        groupPostsIntoThreads fuel posts userDid = Some forest) ∧
     ∀ item, item ∈ posts →
       ∃ node,
         nodes forest !! uri_of item = Some node ∧
         node_post node = post item ∧ node_reason node = reason item ∧
         (∀ p, parent_of item = Some p → p ∈ uri_of <$> posts →
            (uri_of item ∉ roots forest) ∧ isThreadRoot node = false) ∧
         (¬ parent_in_page posts item →
            ∀ u, uri_of item ∉ children_of (nodes forest) u)).
Proof.
  split.
  - intros fuel forest Hbuilt%group_result item Hitem. split.
    + intros p Hparent Hin. apply (forest_child_elem posts); [done|]. by exists item.
    + intros Hout. split.
      * apply (forest_root_elem posts); [done|]. exists item.
        by rewrite root_entry_iff.
      * apply (forest_flag posts); [done|]. exists item. by rewrite root_entry_iff.
  - intros Hnd. destruct (group_returns posts Hnd userDid) as [forest Hgroup].
    exists forest. split; [done|]. intros item Hitem.
    pose proof (group_result posts _ _ _ (Hgroup _ (le_n _))) as Hbuilt.
    destruct (forest_node posts Hnd forest item Hbuilt Hitem)
      as (node & Hnode & Hp & Hr & Hflag).
    exists node. split; [done|]. split; [done|]. split; [done|]. split.
    + intros p Hparent Hin. split.
      * intros (item' & Hitem' & Heq & Hroot)%(forest_root_elem posts); [|done].
        apply (same_uri posts Hnd) in Heq as ->; [|done..].
        apply root_entry_iff in Hroot. apply Hroot. by exists p.
      * rewrite Hflag. apply not_true_is_false. intros Hroot%root_entry_iff.
        apply Hroot. by exists p.
    + intros Hout u (item' & Hitem' & Heq & Hparent & Hin)%(forest_child_elem posts);
        [|done].
      apply (same_uri posts Hnd) in Heq as ->; [|done..]. apply Hout. by exists u.
Qed.

Lemma page_unique : NoDup (uri_of <$> Samples.page).
Proof. apply (bool_decide_unpack _). by vm_compute. Qed.

Lemma thread_attachment_witness :
  ∃ forest,
    (∀ fuel, (length Samples.page ≤ fuel)%nat →
       groupPostsIntoThreads fuel Samples.page Samples.me = Some forest) ∧
    ∀ item, item ∈ Samples.page →
      (∀ p, parent_of item = Some p → p ∈ uri_of <$> Samples.page →
         uri_of item ∈ children_of (nodes forest) p) ∧
      (¬ parent_in_page Samples.page item →
         uri_of item ∈ roots forest ∧
         ∃ node, nodes forest !! uri_of item = Some node ∧ isThreadRoot node = true).
Proof.
  destruct (thread_attachment Samples.page Samples.me) as [Hany Hunique].
  destruct (Hunique page_unique) as (forest & Hgroup & _).
  exists forest. split; [exact Hgroup|].
  exact (Hany _ forest (Hgroup _ (le_n _))).
Defined.

(** C4. Order. Whenever the builder returns a forest for a page, its
    roots are in descending order of the index timestamp, the children of
    every node of the forest are in ascending order of the index
    timestamp, and the roots of one timestamp, and the children of a node
    of one timestamp, follow each other as they do in the feed. For a
    page of entries with distinct URIs the builder does return, and the
    timestamp behind a reference is that of its entry. *)
Theorem thread_order (posts : list BlueskyFeedItem) (userDid : string) :
  (∀ fuel forest,
     groupPostsIntoThreads fuel posts userDid = Some forest →
     StronglySorted (λ a b, time_of (nodes forest) b ≤ time_of (nodes forest) a)
       (roots forest) ∧
     (∀ u, in_forest forest u →
        StronglySorted (λ a b, time_of (nodes forest) a ≤ time_of (nodes forest) b)
          (children_of (nodes forest) u)) ∧
     (∀ t, filter (λ r, time_of (nodes forest) r = t) (roots forest)
           = filter (λ r, time_of (nodes forest) r = t)
               (uri_of <$> filter (λ item, is_root_entry posts item = true) posts)) ∧
     (∀ u t, in_forest forest u →
        filter (λ c, time_of (nodes forest) c = t) (children_of (nodes forest) u)
        = filter (λ c, time_of (nodes forest) c = t)
            (uri_of <$> filter (λ item, parent_of item = Some u) posts))) ∧
  (NoDup (uri_of <$> posts) →
   ∃ forest,
     (∀ fuel, (length posts ≤ fuel)%nat →
        groupPostsIntoThreads fuel posts userDid = Some forest) ∧
     (∀ item, item ∈ posts →
        time_of (nodes forest) (uri_of item) = indexedAt (post item)) ∧
     (∀ t, filter (λ r, time_of (nodes forest) r = t) (roots forest)
           = uri_of <$> filter (λ item, is_root_entry posts item = true ∧
                                        indexedAt (post item) = t) posts) ∧
     (∀ u t, in_forest forest u →
        filter (λ c, time_of (nodes forest) c = t) (children_of (nodes forest) u)
        = uri_of <$> filter (λ item, parent_of item = Some u ∧
                                     indexedAt (post item) = t) posts)).
Proof.
  assert (Hany : ∀ fuel forest,
    groupPostsIntoThreads fuel posts userDid = Some forest →
    StronglySorted (λ a b, time_of (nodes forest) b ≤ time_of (nodes forest) a)
      (roots forest) ∧
    (∀ u, in_forest forest u →
       StronglySorted (λ a b, time_of (nodes forest) a ≤ time_of (nodes forest) b)
         (children_of (nodes forest) u)) ∧
    (∀ t, filter (λ r, time_of (nodes forest) r = t) (roots forest)
          = filter (λ r, time_of (nodes forest) r = t)
              (uri_of <$> filter (λ item, is_root_entry posts item = true) posts)) ∧
    (∀ u t, in_forest forest u →
       filter (λ c, time_of (nodes forest) c = t) (children_of (nodes forest) u)
       = filter (λ c, time_of (nodes forest) c = t)
           (uri_of <$> filter (λ item, parent_of item = Some u) posts))).
  { intros fuel forest Hbuilt%group_result.
    pose proof Hbuilt as (Hroots & Hpart & Hbelow).
    set (mb := postMap (build posts)) in *.
    split; [|split; [|split]].
    - rewrite Hroots. eapply StronglySorted_weaken;
        [|apply (js_sort_sorted _ (λ a, - time_of mb a) (newest_first_key mb))].
      unfold by_key. intros a b Hab. rewrite !(partly_time mb (nodes forest)) by done. lia.
    - intros u Hu. rewrite (forest_kids posts forest u Hbuilt Hu).
      eapply StronglySorted_weaken;
        [|apply (js_sort_sorted _ (time_of mb) (oldest_first_key mb))].
      unfold by_key. intros a b Hab.
      by rewrite !(partly_time mb (nodes forest)) by done.
    - intros t. rewrite Hroots.
      rewrite !(list_filter_iff (λ r, time_of (nodes forest) r = t)
                                (λ r, - time_of mb r = - t));
        try (intros r; rewrite (partly_time mb (nodes forest)) by done; lia).
      rewrite (js_sort_stable _ (λ a, - time_of mb a) (newest_first_key mb)).
      rewrite build_roots. do 2 f_equal.
      apply filter_ext_in. intros item _. by rewrite is_root_page.
    - intros u t Hu. rewrite (forest_kids posts forest u Hbuilt Hu).
      rewrite !(list_filter_iff (λ r, time_of (nodes forest) r = t)
                                (λ r, time_of mb r = t));
        try (intros r; by rewrite (partly_time mb (nodes forest))).
      by rewrite (js_sort_stable _ (time_of mb) (oldest_first_key mb)). }
  split; [exact Hany|].
  intros Hnd. destruct (group_returns posts Hnd userDid) as [forest Hgroup].
  exists forest. split; [done|].
  pose proof (Hgroup _ (le_n _)) as Hsome.
  pose proof (group_result posts _ _ _ Hsome) as Hbuilt.
  destruct (Hany _ _ Hsome) as (_ & _ & Hstable_roots & Hstable_kids).
  split; [|split].
  - intros item Hitem. by apply (forest_time posts).
  - intros t. by rewrite Hstable_roots, (by_time_filter posts).
  - intros u t Hu. by rewrite (Hstable_kids u t Hu), (by_time_filter posts).
Qed.

Lemma tie_page_unique : NoDup (uri_of <$> Samples.tie_page).
Proof. apply (bool_decide_unpack _). by vm_compute. Qed.

Lemma thread_order_witness :
  ∃ forest,
    (∀ fuel, (length Samples.tie_page ≤ fuel)%nat →
       groupPostsIntoThreads fuel Samples.tie_page Samples.me = Some forest) ∧
    StronglySorted (λ a b, time_of (nodes forest) b ≤ time_of (nodes forest) a)
      (roots forest) ∧
    (∀ t, filter (λ r, time_of (nodes forest) r = t) (roots forest)
          = uri_of <$> filter (λ item, is_root_entry Samples.tie_page item = true ∧
                                       indexedAt (post item) = t) Samples.tie_page).
Proof.
  destruct (thread_order Samples.tie_page Samples.me) as [Hany Hunique].
  destruct (Hunique tie_page_unique) as (forest & Hgroup & _ & Hstable & _).
  exists forest. split; [exact Hgroup|]. split; [|exact Hstable].
  exact (proj1 (Hany _ forest (Hgroup _ (le_n _)))).
Defined.

(** The two orders on the samples of the description: a root of time 10
    with replies of times 20 and 15 gets the children in the order 15,
    20; roots of times 7, 9, 7 come out as 9, 7, 7, the two of time 7 in
    the order of the feed, as do the two replies of time 8. *)
Example thread_page_built :
  (λ f, (roots f, children_of (nodes f) "at://me/r"))
    <$> groupPostsIntoThreads 3 Samples.thread_page Samples.me
  = Some (["at://me/r"], ["at://me/c2"; "at://me/c1"]).
Proof. by vm_compute. Qed.

Example tie_page_built :
  (λ f, (roots f, children_of (nodes f) "at://me/a"))
    <$> groupPostsIntoThreads 5 Samples.tie_page Samples.me
  = Some (["at://me/b"; "at://me/a"; "at://me/c"], ["at://me/a2"; "at://me/a1"]).
Proof. by vm_compute. Qed.

End BuilderProofs.

(** * Properties of the cache *)

Module CacheProofs.
Import Cache.

Section Generic.

Context {T : Type}.
Implicit Types (ls : gmap string (Stored T)) (item : CacheItem T).

Lemma get_missing now ls key :
  ls !! getKey key = None → get now ls key = (None, ls).
Proof. intros Hk. unfold get. by rewrite Hk. Qed.

Lemma get_malformed now ls key raw :
  ls !! getKey key = Some (Malformed raw) → get now ls key = (None, ls).
Proof. intros Hk. unfold get. rewrite Hk. by case_bool_decide. Qed.

Lemma get_live now ls key item :
  ls !! getKey key = Some (Json item) →
  now ≤ timestamp item + expiry item →
  get now ls key = (Some (data item), ls).
Proof.
  intros Hk Hlive. unfold get, isExpired. rewrite Hk.
  rewrite bool_decide_eq_false_2; [done|lia].
Qed.

Lemma get_expired now ls key item :
  ls !! getKey key = Some (Json item) →
  ¬ now ≤ timestamp item + expiry item →
  get now ls key = (None, delete (getKey key) ls).
Proof.
  intros Hk Hdead. unfold get, isExpired. rewrite Hk.
  rewrite bool_decide_eq_true_2; [done|lia].
Qed.

Lemma get_after_set now now' ls key (d : T) ttl :
  now' ≤ now + ttl_or_default ttl →
  get now' (set now ls key d ttl) key = (Some d, set now ls key d ttl).
Proof.
  intros Hlive.
  apply (get_live now' _ key {| data := d; timestamp := now; expiry := ttl_or_default ttl |});
    [|done].
  unfold set. apply lookup_insert_eq.
Qed.

(** C5. Time to live. For an entry stored under a key, [get] returns
    the stored value exactly when the current time is at most the time of
    storage plus the time to live, and then leaves the store as it is;
    otherwise it returns nothing and removes the entry, and every later
    [get] of the key returns nothing and leaves the store as it is. *)
Theorem get_ttl (now : Z) ls (key : string) item :
  ls !! getKey key = Some (Json item) →
  ((get now ls key).1 = Some (data item) ↔ now ≤ timestamp item + expiry item) ∧
  (now ≤ timestamp item + expiry item → get now ls key = (Some (data item), ls)) ∧
  (¬ now ≤ timestamp item + expiry item →
     (get now ls key).1 = None ∧
     (get now ls key).2 !! getKey key = None ∧
     ∀ now', get now' (get now ls key).2 key = (None, (get now ls key).2)).
Proof.
  intros Hk. split; [|split].
  - destruct (decide (now ≤ timestamp item + expiry item)) as [Hlive|Hdead].
    + by rewrite (get_live now ls key item).
    + by rewrite (get_expired now ls key item).
  - by apply get_live.
  - intros Hdead. rewrite (get_expired now ls key item) by done. simpl.
    split; [done|]. split; [apply lookup_delete_eq|].
    intros now'. apply get_missing, lookup_delete_eq.
Qed.

(** C8, as the code has it. A malformed payload makes [get] return
    nothing, as a missing entry does, and in both cases the store is left
    as it is: the malformed entry stays under its key. *)
Theorem get_malformed_kept (now : Z) ls (key : string) :
  (ls !! getKey key = None → get now ls key = (None, ls)) ∧
  (∀ raw, ls !! getKey key = Some (Malformed raw) →
     get now ls key = (None, ls) ∧
     (get now ls key).2 !! getKey key = Some (Malformed raw)).
Proof.
  split; [apply get_missing|]. intros raw Hk.
  by rewrite (get_malformed now ls key raw).
Qed.

End Generic.

Lemma get_ttl_witness :
  ((get 100 (set 0 (∅ : gmap string (Stored string)) "k" "v" (Some 100)) "k").1 = Some "v"
   ↔ 100 ≤ 0 + 100) ∧
  (100 ≤ 0 + 100 →
   get 100 (set 0 (∅ : gmap string (Stored string)) "k" "v" (Some 100)) "k"
   = (Some "v", set 0 ∅ "k" "v" (Some 100))) ∧
  (¬ 100 ≤ 0 + 100 →
   (get 100 (set 0 (∅ : gmap string (Stored string)) "k" "v" (Some 100)) "k").1 = None ∧
   (get 100 (set 0 (∅ : gmap string (Stored string)) "k" "v" (Some 100)) "k").2
     !! getKey "k" = None ∧
   ∀ now', get now' (get 100 (set 0 (∅ : gmap string (Stored string)) "k" "v"
                                (Some 100)) "k").2 "k"
           = (None, (get 100 (set 0 ∅ "k" "v" (Some 100)) "k").2)).
Proof.
  apply (get_ttl 100 (set 0 (∅ : gmap string (Stored string)) "k" "v" (Some 100)) "k"
           {| data := "v"; timestamp := 0; expiry := 100 |}).
  reflexivity.
Defined.

(** An entry stored at time 0 for 100 ms: read at 100, gone at 101. *)
Example get_at_the_limit :
  (get 100 (set 0 (∅ : gmap string (Stored string)) "k" "v" (Some 100)) "k").1 = Some "v" ∧
  (get 101 (set 0 (∅ : gmap string (Stored string)) "k" "v" (Some 100)) "k").1 = None ∧
  (get 101 (set 0 (∅ : gmap string (Stored string)) "k" "v" (Some 100)) "k").2
    !! getKey "k" = None.
Proof. by vm_compute. Qed.

(** C8, refuted as stated. The store holds a text that does not parse;
    [get] returns nothing, and the text is still in the store. *)
Lemma malformed_kept_counterexample :
  (get 0 ({[ getKey "posts_me" := Malformed "{oops" ]} : gmap string (Stored string))
         "posts_me").1 = None ∧
  (get 0 ({[ getKey "posts_me" := Malformed "{oops" ]} : gmap string (Stored string))
         "posts_me").2 !! getKey "posts_me" ≠ None.
Proof. by vm_compute. Qed.

Lemma get_malformed_kept_witness :
  get 0 ({[ getKey "posts_me" := Malformed "{oops" ]} : gmap string (Stored string))
        "posts_me"
  = (None, {[ getKey "posts_me" := Malformed "{oops" ]}).
Proof.
  destruct (get_malformed_kept 0
              ({[ getKey "posts_me" := Malformed "{oops" ]} : gmap string (Stored string))
              "posts_me") as [_ Hkept].
  destruct (Hkept "{oops") as [Hget _]; [reflexivity|exact Hget].
Defined.

Section Posts.

Context {P : Type} (post_uri : P → option string).
Implicit Types (ls : gmap string (Stored (PostsCacheData P))).

Lemma unique_new_posts (existing newPosts : list P) :
  filter (λ thread, post_uri thread ∉
                    (list_to_set (post_uri <$> existing) : gset (option string))) newPosts
  = filter (λ thread, post_uri thread ∉ post_uri <$> existing) newPosts.
Proof. apply list_filter_iff. intros thread. by rewrite elem_of_list_to_set. Qed.

Lemma appendPosts_live now ls handle item newPosts newCursor :
  ls !! getKey ("posts_" +:+ handle) = Some (Json item) →
  now ≤ timestamp item + expiry item →
  appendPosts post_uri now ls handle newPosts newCursor
  = match filter (λ thread, post_uri thread ∉ post_uri <$> posts (data item)) newPosts with
    | [] => ls
    | fresh =>
      <[getKey ("posts_" +:+ handle) :=
          Json {| data := {| posts := posts (data item) ++ fresh;
                             cursor := newCursor; handle := handle |};
                  timestamp := now; expiry := POSTS_TTL |}]> ls
    end.
Proof.
  intros Hk Hlive. unfold appendPosts, getPosts.
  rewrite (get_live now ls _ item Hk Hlive), unique_new_posts.
  destruct (filter _ newPosts) as [|thread fresh]; [done|].
  rewrite bool_decide_eq_true_2 by (simpl; lia). done.
Qed.

(** Without an entry that [get] returns, [appendPosts] writes nothing. *)
Lemma appendPosts_absent now ls handle newPosts newCursor :
  (getPosts now ls handle).1 = None →
  appendPosts post_uri now ls handle newPosts newCursor = (getPosts now ls handle).2.
Proof.
  intros Hnone. unfold appendPosts. by destruct (getPosts now ls handle) as [[d|] ls'].
Qed.


Lemma nothing_new_twice (existing newPosts : list P) :
  filter (λ thread, post_uri thread ∉
            post_uri <$> existing
                         ++ filter (λ thread, post_uri thread ∉ post_uri <$> existing)
                              newPosts) newPosts
  = [].
Proof.
  destruct (filter _ newPosts) as [|thread rest] eqn:Hagain; [done|].
  assert (thread ∈ thread :: rest) as Hin by (by left).
  rewrite <- Hagain in Hin. apply list_elem_of_filter in Hin as [Hnew Hin].
  destruct Hnew. rewrite fmap_app, elem_of_app.
  destruct (decide (post_uri thread ∈ post_uri <$> existing)) as [Hold|Hold]; [by left|].
  right. apply list_elem_of_fmap. exists thread. split; [done|].
  by apply list_elem_of_filter.
Qed.

(** C6. Append without duplicates. With a live entry for the account,
    [appendPosts] leaves a cached list that is the cached list followed by
    the incoming threads whose URI was not cached, in their order; when
    every incoming URI was already cached, the store is left exactly as it
    was, time of storage and time to live included; and appending the
    same page once more, while the entry lives, changes nothing. *)
Theorem appendPosts_dedup (now : Z) ls (handle : string) (item : CacheItem (PostsCacheData P))
    (newPosts : list P) (newCursor : option string) :
  ls !! getKey ("posts_" +:+ handle) = Some (Json item) →
  now ≤ timestamp item + expiry item →
  (∃ d, (getPosts now (appendPosts post_uri now ls handle newPosts newCursor) handle).1
        = Some d ∧
        posts d = posts (data item)
                  ++ filter (λ thread, post_uri thread ∉ post_uri <$> posts (data item))
                       newPosts) ∧
  ((∀ thread, thread ∈ newPosts → post_uri thread ∈ post_uri <$> posts (data item)) →
   appendPosts post_uri now ls handle newPosts newCursor = ls) ∧
  (∀ now' cursor',
     now' ≤ timestamp item + expiry item → now' ≤ now + POSTS_TTL →
     appendPosts post_uri now'
       (appendPosts post_uri now ls handle newPosts newCursor) handle newPosts cursor'
     = appendPosts post_uri now ls handle newPosts newCursor).
Proof.
  intros Hk Hlive. rewrite (appendPosts_live now ls handle item) by done.
  split; [|split].
  - destruct (filter _ newPosts) as [|thread fresh] eqn:Hfresh.
    + exists (data item). unfold getPosts.
      rewrite (get_live now ls _ item Hk Hlive). by rewrite app_nil_r.
    + exists {| posts := posts (data item) ++ thread :: fresh;
                cursor := newCursor; handle := handle |}.
      split; [|done]. unfold getPosts.
      rewrite (get_live now _ _
                 {| data := {| posts := posts (data item) ++ thread :: fresh;
                               cursor := newCursor; handle := handle |};
                    timestamp := now; expiry := POSTS_TTL |});
        [done|apply lookup_insert_eq|].
      simpl. unfold POSTS_TTL. lia.
  - intros Hall.
    destruct (filter _ newPosts) as [|thread fresh] eqn:Hfresh; [done|].
    assert (thread ∈ filter (λ thread, post_uri thread ∉ post_uri <$> posts (data item))
                       newPosts) as [Hnew Hin]%list_elem_of_filter
      by (rewrite Hfresh; by left).
    destruct Hnew. by apply Hall.
  - intros now' cursor' Hlive1 Hlive2.
    destruct (filter _ newPosts) as [|thread fresh] eqn:Hfresh.
    + rewrite (appendPosts_live now' ls handle item) by done. by rewrite Hfresh.
    + rewrite (appendPosts_live now' _ handle
                 {| data := {| posts := posts (data item) ++ thread :: fresh;
                               cursor := newCursor; handle := handle |};
                    timestamp := now; expiry := POSTS_TTL |});
        [|apply lookup_insert_eq|done].
      simpl. rewrite <- Hfresh. by rewrite nothing_new_twice.
Qed.

End Posts.

Lemma appendPosts_dedup_witness :
  (∃ d, (getPosts 1
           (appendPosts Samples.cached_uri 1
              (setPosts 0 ∅ "me" ["A"; "B"] (Some "c1") true) "me" ["B"; "C"] (Some "c2"))
           "me").1 = Some d ∧
        posts d = ["A"; "B"] ++ filter (λ thread, Samples.cached_uri thread ∉
                                          Samples.cached_uri <$> ["A"; "B"]) ["B"; "C"]) ∧
  ((∀ thread, thread ∈ ["B"; "C"] →
      Samples.cached_uri thread ∈ Samples.cached_uri <$> ["A"; "B"]) →
   appendPosts Samples.cached_uri 1 (setPosts 0 ∅ "me" ["A"; "B"] (Some "c1") true)
     "me" ["B"; "C"] (Some "c2")
   = setPosts 0 ∅ "me" ["A"; "B"] (Some "c1") true) ∧
  (∀ now' cursor',
     now' ≤ 0 + POSTS_TTL → now' ≤ 1 + POSTS_TTL →
     appendPosts Samples.cached_uri now'
       (appendPosts Samples.cached_uri 1 (setPosts 0 ∅ "me" ["A"; "B"] (Some "c1") true)
          "me" ["B"; "C"] (Some "c2")) "me" ["B"; "C"] cursor'
     = appendPosts Samples.cached_uri 1 (setPosts 0 ∅ "me" ["A"; "B"] (Some "c1") true)
         "me" ["B"; "C"] (Some "c2")).
Proof.
  apply (appendPosts_dedup Samples.cached_uri 1
           (setPosts 0 ∅ "me" ["A"; "B"] (Some "c1") true) "me"
           {| data := {| posts := ["A"; "B"]; cursor := Some "c1"; handle := "me" |};
              timestamp := 0; expiry := POSTS_TTL |}).
  - reflexivity.
  - simpl. unfold POSTS_TTL. lia.
Defined.

(** The cached lists of the description: A, B cached and B, C incoming
    give A, B, C; A, B cached and A, B incoming leave the store alone. *)
Example append_B_C :
  posts <$> (getPosts 1
               (appendPosts Samples.cached_uri 1
                  (setPosts 0 ∅ "me" ["A"; "B"] (Some "c1") true) "me" ["B"; "C"]
                  (Some "c2")) "me").1
  = Some ["A"; "B"; "C"].
Proof. by vm_compute. Qed.

Example append_A_B :
  appendPosts Samples.cached_uri 1 (setPosts 0 ∅ "me" ["A"; "B"] (Some "c1") true)
    "me" ["A"; "B"] (Some "c2")
  = setPosts 0 ∅ "me" ["A"; "B"] (Some "c1") true.
Proof. by vm_compute. Qed.

(** C7, at the input where the code departs from it. A, B are cached;
    the pagination write of a page B, C leaves A, B, B, C, where
    [appendPosts] on the same store and page leaves A, B, C. The same
    happens in a session: the first page A, B is loaded, the preloader
    fetches the page C of cursor c1, and the pagination request for
    cursor c1 fetches it again; the cache then holds A, B, C, C. *)
Theorem setPosts_duplicates :
  posts <$> (getPosts 1
               (setPosts 1 (setPosts 0 ∅ "me" ["A"; "B"] (Some "c1") true)
                  "me" ["B"; "C"] (Some "c2") false) "me").1
  = Some ["A"; "B"; "B"; "C"] ∧
  ¬ NoDup (Samples.cached_uri <$> ["A"; "B"; "B"; "C"]) ∧
  posts <$> (getPosts 1
               (appendPosts Samples.cached_uri 1
                  (setPosts 0 ∅ "me" ["A"; "B"] (Some "c1") true)
                  "me" ["B"; "C"] (Some "c2")) "me").1
  = Some ["A"; "B"; "C"] ∧
  posts <$> (getPosts 2
               (fetchUserPosts Samples.two_pages 2 true
                  (preloadNextBatch Samples.cached_uri 1
                     (fetchUserPosts Samples.two_pages 0 true ∅ "me" None).2
                     "me" (fetchUserPosts Samples.two_pages 1 true))
                  "me" (Some "c1")).2 "me").1
  = Some ["A"; "B"; "C"; "C"].
Proof.
  split; [by vm_compute|]. split; [|split; by vm_compute].
  intros Hnd. apply NoDup_cons in Hnd as [_ Hnd].
  apply NoDup_cons in Hnd as [Hin _]. apply Hin. by left.
Qed.

End CacheProofs.

(** * Further properties of the cache *)

Module CacheExtra.
Import Cache CacheProofs.

Lemma getKey_inj key key' : getKey key = getKey key' → key = key'.
Proof. unfold getKey, CACHE_PREFIX. cbv [String.append]. by intros [= ->]. Qed.

Lemma getKey_prefix key : String.prefix CACHE_PREFIX (getKey key) = true.
Proof. unfold getKey, CACHE_PREFIX. cbv [String.append]. by destruct key. Qed.

Lemma profile_key_not_posts h h' :
  getKey ("profile_" +:+ h) ≠ getKey ("posts_" +:+ h').
Proof. intros Heq%getKey_inj. revert Heq. cbv [String.append]. by intros [=]. Qed.

Section Generic.

Context {T : Type}.
Implicit Types (ls : gmap string (Stored T)) (item : CacheItem T).

(** What [get] leaves in the store: the store, or the store without the
    key it read. *)
Lemma get_store now ls key :
  (get now ls key).2 = ls ∨
  ((get now ls key).2 = delete (getKey key) ls ∧ (get now ls key).1 = None ∧
   ∃ item, ls !! getKey key = Some (Json item) ∧ ¬ now ≤ timestamp item + expiry item).
Proof.
  unfold get, isExpired.
  destruct (ls !! getKey key) as [[raw|item]|] eqn:Hk; [case_bool_decide; by left| |by left].
  case_bool_decide as Hdead; [|by left]. right. repeat split; try done.
  exists item. split; [done|lia].
Qed.

Lemma get_other_key now ls key key' :
  key ≠ key' →
  get now (delete (getKey key) ls) key'
  = ((get now ls key').1, delete (getKey key) (get now ls key').2).
Proof.
  intros Hne. assert (getKey key ≠ getKey key') as Hk by (by intros ?%getKey_inj).
  unfold get. rewrite lookup_delete_ne by done.
  destruct (ls !! getKey key') as [[raw|item]|]; [by case_bool_decide| |done].
  destruct (isExpired now item); [|done]. simpl. unfold delete_.
  by rewrite delete_delete.
Qed.

(** X1. Lifetime of a written entry. After [set], [get] of the key
    returns the written value at any time up to the time of writing plus
    the time to live, where an absent time to live and a time to live of 0
    both count as 300000 ms; after that time [get] returns nothing and
    the store is the earlier store without the key. *)
Theorem set_get_lifetime (now now' : Z) ls (key : string) (d : T) (ttl : option Z) :
  get now' (set now ls key d ttl) key
  = if bool_decide (now' ≤ now + match ttl with
                                 | Some t => if bool_decide (t = 0) then 300000 else t
                                 | None => 300000
                                 end)
    then (Some d, set now ls key d ttl)
    else (None, delete (getKey key) ls).
Proof.
  change 300000 with DEFAULT_TTL. fold (ttl_or_default ttl).
  case_bool_decide as Hlive.
  - by apply get_after_set.
  - rewrite (get_expired now' _ key
               {| data := d; timestamp := now; expiry := ttl_or_default ttl |});
      [|apply lookup_insert_eq|done].
    unfold set. by rewrite delete_insert_eq.
Qed.

(** X2. Keys do not interfere. Writing one key and reading another can
    be done in either order: the read returns the same value, and the
    final stores are equal. *)
Theorem get_set_commute (now now' : Z) ls (key key' : string) (d : T) (ttl : option Z) :
  key ≠ key' →
  get now' (set now ls key d ttl) key'
  = ((get now' ls key').1, set now (get now' ls key').2 key d ttl).
Proof.
  intros Hne. assert (getKey key ≠ getKey key') as Hk by (by intros ?%getKey_inj).
  unfold get, set. rewrite lookup_insert_ne by done.
  destruct (ls !! getKey key') as [[raw|item]|]; [by case_bool_decide| |done].
  destruct (isExpired now' item); [|done]. simpl. unfold delete_.
  by rewrite delete_insert_ne.
Qed.

(** X3. Profiles and posts do not share keys, whatever the handles:
    writing a profile does not change what a posts key returns, and
    writing under a posts key does not change what [getProfile] returns. *)
Theorem profile_posts_separate (now now' : Z) ls (h h' : string) (profile d : T)
    (ttl : option Z) :
  (get now' (setProfile now ls h profile) ("posts_" +:+ h')).1
  = (get now' ls ("posts_" +:+ h')).1 ∧
  (getProfile now' (set now ls ("posts_" +:+ h') d ttl) h).1
  = (getProfile now' ls h).1.
Proof.
  split.
  - unfold setProfile, get, set.
    rewrite lookup_insert_ne by apply profile_key_not_posts.
    destruct (ls !! _) as [[raw|item]|]; [by case_bool_decide| |done].
    by destruct (isExpired now' item).
  - unfold getProfile, get, set.
    rewrite lookup_insert_ne by (apply not_eq_sym, profile_key_not_posts).
    destruct (ls !! _) as [[raw|item]|]; [by case_bool_decide| |done].
    by destruct (isExpired now' item).
Qed.

(** X4. [clear] empties the cache and nothing else: afterwards [get]
    returns nothing for every key, at any time, and leaves the store as
    it is; every key of the store that does not start with the prefix of
    the cache keeps its value. *)
Theorem clear_removes_cache_only ls :
  (∀ now key, get now (clear ls) key = (None, clear ls)) ∧
  (∀ k, String.prefix CACHE_PREFIX k = false → clear ls !! k = ls !! k) ∧
  (∀ k, String.prefix CACHE_PREFIX k = true → clear ls !! k = None).
Proof.
  assert (Hgone : ∀ k, String.prefix CACHE_PREFIX k = true → clear ls !! k = None).
  { intros k Hk. unfold clear. apply map_lookup_filter_None. right.
    intros x _. simpl. congruence. }
  split; [|split; [|done]].
  - intros now key. apply get_missing, Hgone, getKey_prefix.
  - intros k Hk. unfold clear. destruct (ls !! k) as [x|] eqn:Hx.
    + by apply map_lookup_filter_Some.
    + apply map_lookup_filter_None. by left.
Qed.

Lemma read_leaves_reads (now now' : Z) ls (key key' : string) :
  now ≤ now' →
  (get now' (get now ls key).2 key').1 = (get now' ls key').1.
Proof.
  intros Hlater.
  destruct (get_store now ls key) as [->|(-> & _ & item & Hk & Hdead)]; [done|].
  destruct (decide (key = key')) as [<-|Hne].
  - rewrite (get_missing now' (delete _ _)) by apply lookup_delete_eq.
    rewrite (get_expired now' ls key item); [done..|lia].
  - by rewrite get_other_key.
Qed.

(** X5. The eviction of [get] cannot be observed: after a [get] at some
    time, every [get] at that time or later, of any key, returns what it
    would have returned from the store before. *)
Theorem get_eviction_unobservable (now now' : Z) ls (key key' : string) :
  now ≤ now' →
  (get now' (get now ls key).2 key').1 = (get now' ls key').1.
Proof. apply read_leaves_reads. Qed.

End Generic.

Lemma get_set_commute_witness :
  get 5 (set 0 (∅ : gmap string (Stored string)) "a" "v" None) "b"
  = ((get 5 (∅ : gmap string (Stored string)) "b").1,
     set 0 (get 5 (∅ : gmap string (Stored string)) "b").2 "a" "v" None).
Proof. apply (get_set_commute 0 5 ∅ "a" "b" "v" None). by intros [=]. Defined.

Lemma get_eviction_unobservable_witness :
  (get 9 (get 7 (set 0 (∅ : gmap string (Stored string)) "a" "v" (Some 5)) "a").2 "a").1
  = (get 9 (set 0 (∅ : gmap string (Stored string)) "a" "v" (Some 5)) "a").1.
Proof.
  apply (get_eviction_unobservable 7 9
           (set 0 (∅ : gmap string (Stored string)) "a" "v" (Some 5)) "a" "a").
  lia.
Defined.

Section Posts.

Context {P : Type} (post_uri : P → option string).
Implicit Types (ls : gmap string (Stored (PostsCacheData P))).

(** Every branch of [setPosts] ends in a write of the whole entry. *)
Lemma setPosts_entry now ls handle page cur isInitial :
  setPosts now ls handle page cur isInitial !! getKey ("posts_" +:+ handle)
  = Some (Json {| data := {| posts := (if isInitial then []
                                       else match (getPosts now ls handle).1 with
                                            | Some existing => posts existing
                                            | None => []
                                            end) ++ page;
                             cursor := cur; handle := handle |};
                  timestamp := now; expiry := POSTS_TTL |}).
Proof.
  unfold setPosts. destruct isInitial; [apply lookup_insert_eq|].
  destruct (getPosts now ls handle) as [[existing|] ls']; apply lookup_insert_eq.
Qed.

(** X6. Freshness and readability. After any [setPosts] at time [now],
    [getCacheFreshness] at time [now'] reports the age [now' - now] and
    reports fresh exactly when the age is below 120000 ms; a fresh entry
    is always returned by [getPosts]; at the age of exactly 120000 ms the
    entry is reported as not fresh while [getPosts] still returns it. *)
Theorem freshness_after_write (now now' : Z) ls (handle : string) (page : list P)
    (cur : option string) (isInitial : bool) :
  getCacheFreshness now' (setPosts now ls handle page cur isInitial) handle
  = Some {| isFresh := bool_decide (now' - now < 120000); age := now' - now |} ∧
  (now' - now < 120000 →
   is_Some (getPosts now' (setPosts now ls handle page cur isInitial) handle).1) ∧
  getCacheFreshness (now + 120000) (setPosts now ls handle page cur isInitial) handle
  = Some {| isFresh := false; age := 120000 |} ∧
  is_Some (getPosts (now + 120000) (setPosts now ls handle page cur isInitial) handle).1.
Proof.
  change 120000 with POSTS_TTL.
  pose proof (setPosts_entry now ls handle page cur isInitial) as Hentry.
  split; [|split; [|split]].
  - unfold getCacheFreshness. by rewrite Hentry.
  - intros Hfresh. unfold getPosts.
    erewrite get_live; [by eexists|exact Hentry|]. simpl. lia.
  - unfold getCacheFreshness. rewrite Hentry. simpl.
    replace (now + POSTS_TTL - now) with POSTS_TTL by lia.
    by rewrite bool_decide_eq_false_2 by lia.
  - unfold getPosts. erewrite get_live; [by eexists|exact Hentry|]. simpl. lia.
Qed.

(** X7. What [setPosts] leaves. Up to 120000 ms after a [setPosts],
    [getPosts] returns the given cursor and handle and, as list, the
    page alone for an initial load, and otherwise the list that
    [getPosts] returned before the call (none when the entry was
    missing, expired or malformed) followed by the page. *)
Theorem setPosts_readback (now now' : Z) ls (handle : string) (page : list P)
    (cur : option string) (isInitial : bool) :
  now' ≤ now + 120000 →
  (getPosts now' (setPosts now ls handle page cur isInitial) handle).1
  = Some {| posts := (if isInitial then []
                      else match (getPosts now ls handle).1 with
                           | Some existing => posts existing
                           | None => []
                           end) ++ page;
            cursor := cur; handle := handle |}.
Proof.
  intros Hlive. unfold getPosts at 1.
  rewrite (get_live now' _ _ _ (setPosts_entry now ls handle page cur isInitial));
    [done|]. simpl. unfold POSTS_TTL. lia.
Qed.

(** X8. [appendPosts] creates no entry. When [getPosts] returns nothing
    (the entry is missing, expired or malformed), then after
    [appendPosts] it returns nothing at any time, whatever the page. *)
Theorem appendPosts_creates_nothing (now : Z) ls (handle : string) (newPosts : list P)
    (newCursor : option string) :
  (getPosts now ls handle).1 = None →
  ∀ now', (getPosts now' (appendPosts post_uri now ls handle newPosts newCursor) handle).1
          = None.
Proof.
  intros Hnone now'. rewrite appendPosts_absent by done.
  unfold getPosts in *. revert Hnone. unfold get at 1 3.
  destruct (ls !! _) as [[raw|item]|] eqn:Hk.
  - intros _. case_bool_decide; simpl; by rewrite (get_malformed now' ls _ raw).
  - destruct (isExpired now item); [|done]. intros _. simpl.
    unfold delete_. by rewrite get_missing by apply lookup_delete_eq.
  - intros _. simpl. by rewrite get_missing.
Qed.

(** X9. [appendPosts] keeps the URIs distinct. With a live entry whose
    threads have distinct URIs and a page whose threads have distinct
    URIs, the list cached after [appendPosts] has distinct URIs. *)
Theorem appendPosts_keeps_distinct (now : Z) ls (handle : string)
    (item : CacheItem (PostsCacheData P)) (newPosts : list P) (newCursor : option string) :
  ls !! getKey ("posts_" +:+ handle) = Some (Json item) →
  now ≤ timestamp item + expiry item →
  NoDup (post_uri <$> posts (data item)) →
  NoDup (post_uri <$> newPosts) →
  ∃ d, (getPosts now (appendPosts post_uri now ls handle newPosts newCursor) handle).1
       = Some d ∧
       NoDup (post_uri <$> posts d).
Proof.
  intros Hk Hlive Hold Hnew. rewrite (appendPosts_live post_uri now ls handle item) by done.
  destruct (filter _ newPosts) as [|thread fresh] eqn:Hfresh.
  { exists (data item). unfold getPosts. by rewrite (get_live now ls _ item Hk Hlive). }
  exists {| posts := posts (data item) ++ thread :: fresh;
            cursor := newCursor; handle := handle |}.
  split.
  { unfold getPosts.
    rewrite (get_live now _ _
               {| data := {| posts := posts (data item) ++ thread :: fresh;
                             cursor := newCursor; handle := handle |};
                  timestamp := now; expiry := POSTS_TTL |});
      [done|apply lookup_insert_eq|].
    simpl. unfold POSTS_TTL. lia. }
  simpl. rewrite <- Hfresh, fmap_app. apply NoDup_app. split; [done|]. split.
  - intros u Hu (thread' & -> & [Hnot _]%list_elem_of_filter)%list_elem_of_fmap. done.
  - eapply sublist_NoDup; [exact Hnew|]. apply fmap_sublist, sublist_filter.
Qed.

Lemma fetch_hit (remote : string → option string → option (list P * option string))
    now ls handle cur (item : CacheItem (PostsCacheData P)) :
  ls !! getKey ("posts_" +:+ handle) = Some (Json item) →
  now ≤ timestamp item + expiry item →
  no_cursor cur = true →
  fetchUserPosts remote now true ls handle cur
  = (Some (posts (data item), cursor (data item)), ls).
Proof.
  intros Hk Hlive Hcur. unfold fetchUserPosts, getPosts. rewrite Hcur. simpl.
  by rewrite (get_live now ls _ item Hk Hlive).
Qed.

(** X10. The first page is served from the cache. With a live entry,
    [fetchUserPosts] with the cache in use and without cursor returns the
    cached threads and cursor and leaves the store as it is, whatever the
    remote side would answer. *)
Theorem fetchUserPosts_cache_hit
    (remote : string → option string → option (list P * option string))
    (now : Z) ls (handle : string) (cur : option string)
    (item : CacheItem (PostsCacheData P)) :
  ls !! getKey ("posts_" +:+ handle) = Some (Json item) →
  now ≤ timestamp item + expiry item →
  no_cursor cur = true →
  fetchUserPosts remote now true ls handle cur
  = (Some (posts (data item), cursor (data item)), ls).
Proof. apply fetch_hit. Qed.

(** X11. The first page is cached for two minutes. When the cache
    returns nothing and the request succeeds, [fetchUserPosts] returns
    the page, and every call without cursor during the next 120000 ms
    returns the same page and cursor and leaves the store as it is,
    whatever the remote side would answer then. *)
Theorem fetchUserPosts_miss_then_hit
    (remote : string → option string → option (list P * option string))
    (now : Z) ls (handle : string) (cur : option string) (page : list P)
    (next : option string) :
  (getPosts now ls handle).1 = None →
  no_cursor cur = true →
  remote handle cur = Some (page, next) →
  (fetchUserPosts remote now true ls handle cur).1 = Some (page, next) ∧
  ∀ remote' now' cur',
    now' ≤ now + 120000 →
    no_cursor cur' = true →
    fetchUserPosts remote' now' true (fetchUserPosts remote now true ls handle cur).2
      handle cur'
    = (Some (page, next), (fetchUserPosts remote now true ls handle cur).2).
Proof.
  intros Hnone Hcur Hremote.
  assert (Hfetch : fetchUserPosts remote now true ls handle cur
                   = (Some (page, next),
                      setPosts now (getPosts now ls handle).2 handle page next true)).
  { unfold fetchUserPosts. rewrite Hcur, Hremote. simpl.
    by destruct (getPosts now ls handle) as [[existing|] ls']. }
  rewrite Hfetch. split; [done|]. intros remote' now' cur' Hlive Hcur'.
  cbn [fst snd].
  rewrite (fetch_hit remote' now' _ handle cur' _
             (setPosts_entry now (getPosts now ls handle).2 handle page next true));
    [done| |done].
  simpl. unfold POSTS_TTL. lia.
Qed.

(** X12. A fetch that throws costs the cache nothing. When
    [fetchUserPosts] fails, every later [get], of any key, returns what
    it would have returned without the call. *)
Theorem fetchUserPosts_failure_keeps_cache
    (remote : string → option string → option (list P * option string))
    (now : Z) (useCache : bool) ls (handle : string) (cur : option string) :
  (fetchUserPosts remote now useCache ls handle cur).1 = None →
  ∀ now' key, now ≤ now' →
    (get now' (fetchUserPosts remote now useCache ls handle cur).2 key).1
    = (get now' ls key).1.
Proof.
  unfold fetchUserPosts. intros Hfail now' key Hlater.
  destruct (useCache && no_cursor cur).
  - unfold getPosts in *.
    pose proof (read_leaves_reads now now' ls ("posts_" +:+ handle) key Hlater) as Hread.
    destruct (get now ls ("posts_" +:+ handle)) as [[cached|] ls']; [done|].
    destruct (remote handle cur) as [[page next]|]; [done|]. exact Hread.
  - by destruct (remote handle cur) as [[page next]|].
Qed.

(** X13. The preloader does nothing without a cursor. When the cache
    returns no entry, or an entry without cursor or with an empty one,
    [preloadNextBatch] does not call the fetch function and leaves the
    store as the read left it. *)
Theorem preload_without_cursor (now : Z) ls (handle : string)
    (fetchFunction : gmap string (Stored (PostsCacheData P)) → string → option string →
                     option (list P * option string) *
                     gmap string (Stored (PostsCacheData P))) :
  (∀ cached, (getPosts now ls handle).1 = Some cached →
             no_cursor (cursor cached) = true) →
  preloadNextBatch post_uri now ls handle fetchFunction = (getPosts now ls handle).2.
Proof.
  intros Hcur. unfold preloadNextBatch.
  destruct (getPosts now ls handle) as [[cached|] ls']; [|done].
  by rewrite (Hcur cached).
Qed.



End Posts.

Section Profiles.

Context {T : Type}.
Implicit Types (ls : gmap string (Stored T)).

(** X15. A fetched profile is cached for thirty minutes. When the cache
    returns nothing and the request yields a profile, [fetchUserProfile]
    returns it, and every call during the next 1800000 ms returns the
    same profile and leaves the store as it is, whatever the remote side
    would answer then. *)
Theorem profile_cached_after_fetch (remote : string → Util.ProfileResponse T)
    (now : Z) ls (handle : string) (profile : T) :
  (getProfile now ls handle).1 = None →
  remote handle = Util.ProfileOk (Some profile) →
  (Util.fetchUserProfile remote now ls handle).1 = Some profile ∧
  ∀ remote' now',
    now' ≤ now + 1800000 →
    Util.fetchUserProfile remote' now' (Util.fetchUserProfile remote now ls handle).2 handle
    = (Some profile, (Util.fetchUserProfile remote now ls handle).2).
Proof.
  intros Hnone Hremote.
  assert (Hfetch : Util.fetchUserProfile remote now ls handle
                   = (Some profile, setProfile now (getProfile now ls handle).2
                                      handle profile)).
  { unfold Util.fetchUserProfile.
    destruct (getProfile now ls handle) as [[cached|] ls']; [done|]. by rewrite Hremote. }
  rewrite Hfetch. split; [done|]. intros remote' now' Hlive. cbn [fst snd].
  unfold Util.fetchUserProfile, getProfile at 1, setProfile.
  by rewrite get_after_set by (simpl; unfold PROFILE_TTL; lia).
Qed.

(** X16. A failed profile request is absorbed. When the request yields
    no profile (no ok status, a rejected request, a body that is no
    JSON), [fetchProfileData] returns what the cache returns, the cached
    profile or nothing, and does to the store what the read does. *)
Theorem profile_failure_absorbed (remote : string → Util.ProfileResponse T)
    (now : Z) ls (did : string) :
  (∀ profile, remote did ≠ Util.ProfileOk (Some profile)) →
  Util.fetchProfileData remote now ls did = getProfile now ls did.
Proof.
  intros Hfail. unfold Util.fetchProfileData.
  destruct (getProfile now ls did) as [[cached|] ls']; [done|].
  destruct (remote did) as [| |[profile|]] eqn:Hremote; try done.
  by destruct (Hfail profile).
Qed.

End Profiles.

(** Witnesses on a store that holds A, B for the handle me. *)

Lemma setPosts_readback_witness :
  (getPosts 7 (setPosts 1 (setPosts 0 ∅ "me" ["A"; "B"] (Some "c1") true)
                 "me" ["C"] None false) "me").1
  = Some {| posts := (if false then []
                      else match (getPosts 1 (setPosts 0 ∅ "me" ["A"; "B"] (Some "c1") true)
                                    "me").1 with
                           | Some existing => posts existing
                           | None => []
                           end) ++ ["C"];
            cursor := None; handle := "me" |}.
Proof.
  apply (setPosts_readback 1 7 (setPosts 0 ∅ "me" ["A"; "B"] (Some "c1") true)
           "me" ["C"] None false).
  lia.
Defined.

Lemma appendPosts_creates_nothing_witness :
  (getPosts 7 (appendPosts Samples.cached_uri 0
                 (∅ : gmap string (Stored (PostsCacheData string)))
                 "me" ["A"] None) "me").1 = None.
Proof.
  apply (appendPosts_creates_nothing Samples.cached_uri 0 ∅ "me" ["A"] None).
  reflexivity.
Defined.

Lemma appendPosts_keeps_distinct_witness :
  ∃ d, (getPosts 1 (appendPosts Samples.cached_uri 1
                      (setPosts 0 ∅ "me" ["A"; "B"] (Some "c1") true)
                      "me" ["B"; "C"] None) "me").1 = Some d ∧
       NoDup (Samples.cached_uri <$> posts d).
Proof.
  apply (appendPosts_keeps_distinct Samples.cached_uri 1
           (setPosts 0 ∅ "me" ["A"; "B"] (Some "c1") true) "me"
           {| data := {| posts := ["A"; "B"]; cursor := Some "c1"; handle := "me" |};
              timestamp := 0; expiry := POSTS_TTL |}).
  - reflexivity.
  - simpl. unfold POSTS_TTL. lia.
  - apply (bool_decide_unpack _). by vm_compute.
  - apply (bool_decide_unpack _). by vm_compute.
Defined.

Lemma fetchUserPosts_cache_hit_witness :
  fetchUserPosts (λ _ _, None) 1 true (setPosts 0 ∅ "me" ["A"; "B"] (Some "c1") true)
    "me" None
  = (Some (["A"; "B"], Some "c1"), setPosts 0 ∅ "me" ["A"; "B"] (Some "c1") true).
Proof.
  apply (fetchUserPosts_cache_hit (λ _ _, None) 1
           (setPosts 0 ∅ "me" ["A"; "B"] (Some "c1") true) "me" None
           {| data := {| posts := ["A"; "B"]; cursor := Some "c1"; handle := "me" |};
              timestamp := 0; expiry := POSTS_TTL |}).
  - reflexivity.
  - simpl. unfold POSTS_TTL. lia.
  - reflexivity.
Defined.

Lemma fetchUserPosts_miss_then_hit_witness :
  (fetchUserPosts Samples.two_pages 0 true ∅ "me" None).1 = Some (["A"; "B"], Some "c1") ∧
  ∀ remote' now' cur',
    now' ≤ 0 + 120000 →
    no_cursor cur' = true →
    fetchUserPosts remote' now' true (fetchUserPosts Samples.two_pages 0 true ∅ "me" None).2
      "me" cur'
    = (Some (["A"; "B"], Some "c1"),
       (fetchUserPosts Samples.two_pages 0 true ∅ "me" None).2).
Proof.
  apply (fetchUserPosts_miss_then_hit Samples.two_pages 0 ∅ "me" None
           ["A"; "B"] (Some "c1")); reflexivity.
Defined.

Lemma fetchUserPosts_failure_keeps_cache_witness :
  (get 2 (fetchUserPosts (λ _ _, None) 1 true
            (setPosts 0 ∅ "me" ["A"; "B"] (Some "c1") true) "me" (Some "c1")).2
     "posts_me").1
  = (get 2 (setPosts 0 ∅ "me" ["A"; "B"] (Some "c1") true) "posts_me").1.
Proof.
  apply (fetchUserPosts_failure_keeps_cache (λ _ _, None) 1 true
           (setPosts 0 ∅ "me" ["A"; "B"] (Some "c1") true) "me" (Some "c1")).
  - reflexivity.
  - lia.
Defined.

Lemma preload_without_cursor_witness :
  preloadNextBatch Samples.cached_uri 1 (setPosts 0 ∅ "me" ["A"; "B"] None true) "me"
    (fetchUserPosts Samples.two_pages 1 true)
  = (getPosts 1 (setPosts 0 ∅ "me" ["A"; "B"] None true) "me").2.
Proof.
  apply (preload_without_cursor Samples.cached_uri 1
           (setPosts 0 ∅ "me" ["A"; "B"] None true) "me").
  intros cached. vm_compute. by intros [= <-].
Defined.


Lemma profile_cached_after_fetch_witness :
  (Util.fetchUserProfile (λ _, Util.ProfileOk (Some "profile")) 0
     (∅ : gmap string (Stored string)) "me").1 = Some "profile" ∧
  ∀ remote' now',
    now' ≤ 0 + 1800000 →
    Util.fetchUserProfile remote' now'
      (Util.fetchUserProfile (λ _, Util.ProfileOk (Some "profile")) 0
         (∅ : gmap string (Stored string)) "me").2 "me"
    = (Some "profile",
       (Util.fetchUserProfile (λ _, Util.ProfileOk (Some "profile")) 0
          (∅ : gmap string (Stored string)) "me").2).
Proof.
  apply (profile_cached_after_fetch (λ _, Util.ProfileOk (Some "profile")) 0
           (∅ : gmap string (Stored string)) "me" "profile"); reflexivity.
Defined.

Lemma profile_failure_absorbed_witness :
  Util.fetchProfileData (λ _, Util.ProfileNotOk) 0 (∅ : gmap string (Stored string)) "did:x"
  = getProfile 0 (∅ : gmap string (Stored string)) "did:x".
Proof.
  apply (profile_failure_absorbed (λ _, Util.ProfileNotOk) 0
           (∅ : gmap string (Stored string)) "did:x").
  intros profile. discriminate.
Defined.

End CacheExtra.

(** * Further properties of the filter *)

Module FilterExtra.
Import Bluesky FilterSpec MoreSpec ListFacts FilterProofs.

Section Filter.

Variable fetch : Network.
Variable userDid : string.

Lemma filter_loop_acc fuel (feed : list BlueskyFeedItem) acc :
  filter_loop fetch fuel userDid feed acc
  = (λ out, acc ++ out) <$> filter_loop fetch fuel userDid feed [].
Proof.
  revert acc. induction feed as [|item rest IH]; intros acc.
  { simpl. by rewrite app_nil_r. }
  simpl. destruct (has_repost_reason item); [apply IH|].
  destruct (is_repost_record (post item)); [apply IH|].
  destruct (text (record (post item))); [|apply IH].
  assert (Hpush : filter_loop fetch fuel userDid rest (acc ++ [item])
                  = (λ out, acc ++ out) <$> filter_loop fetch fuel userDid rest [item]).
  { rewrite (IH (acc ++ [item])), (IH [item]).
    destruct (filter_loop fetch fuel userDid rest []) as [out|]; [|done].
    simpl. by rewrite <- app_assoc. }
  destruct (reply (record (post item))); [|exact Hpush].
  destruct (isReplyInSelfOnlyThread fetch fuel (post item) userDid) as [[]|];
    [exact Hpush|apply IH|done].
Qed.

Lemma filter_fixed {A} (P : A → Prop) `{!∀ x, Decision (P x)} (l : list A) :
  filter P (filter P l) = filter P l.
Proof.
  rewrite list_filter_filter. apply filter_ext_in. naive_solver.
Qed.

Lemma walk_fails p :
  FailsInChain fetch p →
  ∀ acc, ∃ n, walk fetch n userDid (Some p) acc = Some false.
Proof.
  induction 1 as [p r Hreply Hfail | p r q Hreply Hfetch Hq IH]; intros acc.
  - exists 1%nat. by apply (failed_lookup_rejected fetch userDid 0 p r).
  - destruct (decide (did (author p) = userDid)) as [Hauth|Hauth].
    + destruct (IH (acc ∪ {[ userDid ]})) as [n Hn]. exists (S n).
      by rewrite (walk_step fetch userDid n p r (Some q)).
    + exists 1%nat. simpl. by rewrite bool_decide_eq_true_2.
Qed.

Lemma walk_accepts p :
  Accepted fetch userDid p →
  ∀ acc, acc ⊆ {[ userDid ]} →
  ∃ n, walk fetch n userDid (Some p) acc = Some true.
Proof.
  induction 1 as [p Hauth Hroot | p r Hauth Hreply Hfetch | p r q Hauth Hreply Hfetch Hq IH];
    intros acc Hacc.
  - exists 1%nat. simpl. rewrite Hauth, bool_decide_eq_false_2 by auto.
    by rewrite Hroot, only_user_singleton.
  - exists 2%nat. rewrite (walk_step fetch userDid 1 p r None) by done.
    simpl. by rewrite only_user_singleton.
  - destruct (IH (acc ∪ {[ userDid ]})) as [n Hn]; [set_solver|]. exists (S n).
    by rewrite (walk_step fetch userDid n p r (Some q)).
Qed.

Lemma walk_true_accepted fuel p acc :
  walk fetch fuel userDid (Some p) acc = Some true → Accepted fetch userDid p.
Proof.
  revert p acc. induction fuel as [|fuel IH]; intros p acc Hw; [done|].
  simpl in Hw. case_bool_decide as Hauth; [done|].
  assert (did (author p) = userDid) as Hme by (by destruct (decide (did (author p) = userDid))).
  destruct (reply (record p)) as [r|] eqn:Hreply; [|by apply accepted_root].
  destruct (fetch (parent_uri r)) as [| |[| |[q|]]] eqn:Hfetch; try done.
  - apply (accepted_reply _ _ p r q); try done. by eapply IH.
  - by apply (accepted_no_post _ _ p r).
Qed.

(** X17. Posts that are no replies. Whenever the filter returns, an
    entry of the feed without reply reference is kept exactly when it
    carries no repost marker, its record is no repost record and its
    record has a text: whoever wrote it, and whatever the network
    answers. *)
Theorem nonreply_kept (fuel : nat) (feed out : list BlueskyFeedItem) :
  filterPostsForSelfOnlyThreads fetch fuel feed userDid = Some out →
  ∀ item, item ∈ feed →
    reply (record (post item)) = None →
    (item ∈ out ↔
     has_repost_reason item = false ∧ is_repost_record (post item) = false ∧
     is_Some (text (record (post item)))).
Proof.
  intros Hout item Hitem Hreply.
  apply (filter_result fetch userDid) in Hout as ->.
  rewrite list_elem_of_filter. unfold keeps. rewrite Hreply.
  destruct (has_repost_reason item); [naive_solver|].
  destruct (is_repost_record (post item)); [naive_solver|].
  destruct (text (record (post item))) as [t|]; [naive_solver|].
  split; [by intros [? _]|]. by intros (_ & _ & [t Ht]).
Qed.

(** X18. The filter is idempotent: on the list it returned it returns
    the same list. *)
Theorem filter_idempotent (fuel : nat) (feed out : list BlueskyFeedItem) :
  filterPostsForSelfOnlyThreads fetch fuel feed userDid = Some out →
  filterPostsForSelfOnlyThreads fetch fuel out userDid = Some out.
Proof.
  intros Hout.
  pose proof (filter_loop_decided fetch userDid _ _ _ _ Hout) as Hdec.
  apply (filter_result fetch userDid) in Hout as ->.
  unfold filterPostsForSelfOnlyThreads. rewrite filter_loop_keeps.
  - simpl. by rewrite filter_fixed.
  - intros item [_ Hitem]%list_elem_of_filter. by apply Hdec.
Qed.

(** X19. Pages are filtered independently: the filter of two feeds one
    after the other is the filter of the first followed by the filter of
    the second, and it returns when both do. *)
Theorem filter_app (fuel : nat) (feed1 feed2 : list BlueskyFeedItem) :
  filterPostsForSelfOnlyThreads fetch fuel (feed1 ++ feed2) userDid
  = match filterPostsForSelfOnlyThreads fetch fuel feed1 userDid,
          filterPostsForSelfOnlyThreads fetch fuel feed2 userDid with
    | Some out1, Some out2 => Some (out1 ++ out2)
    | _, _ => None
    end.
Proof.
  unfold filterPostsForSelfOnlyThreads.
  induction feed1 as [|item rest IH].
  { simpl. by destruct (filter_loop fetch fuel userDid feed2 []). }
  assert (Hpush : filter_loop fetch fuel userDid (rest ++ feed2) [item]
                  = match filter_loop fetch fuel userDid rest [item],
                          filter_loop fetch fuel userDid feed2 [] with
                    | Some out1, Some out2 => Some (out1 ++ out2)
                    | _, _ => None
                    end).
  { rewrite (filter_loop_acc _ (rest ++ feed2) [item]), (filter_loop_acc _ rest [item]), IH.
    destruct (filter_loop fetch fuel userDid rest []) as [out1|]; [|done].
    by destruct (filter_loop fetch fuel userDid feed2 []). }
  simpl. destruct (has_repost_reason item); [exact IH|].
  destruct (is_repost_record (post item)); [exact IH|].
  destruct (text (record (post item))); [|exact IH].
  destruct (reply (record (post item))); [|exact Hpush].
  destruct (isReplyInSelfOnlyThread fetch fuel (post item) userDid) as [[]|];
    [exact Hpush|exact IH|done].
Qed.

(** X20. Failing lookups reject. When somewhere up the chain of a reply
    the lookup of a parent fails (no ok status, a rejected request, a
    body that is no JSON or has no thread member), the walk returns
    [false] from some number of steps on, and whenever the filter
    returns, no entry with this post is in its result. *)
Theorem failing_lookup_excluded (p : BlueskyPost) :
  FailsInChain fetch p →
  (∃ n, ∀ fuel, (n ≤ fuel)%nat →
     isReplyInSelfOnlyThread fetch fuel p userDid = Some false) ∧
  ∀ fuel feed out item,
    filterPostsForSelfOnlyThreads fetch fuel feed userDid = Some out →
    post item = p → item ∉ out.
Proof.
  intros Hfails. destruct (walk_fails p Hfails ∅) as [n Hn]. split.
  - exists n. intros fuel Hfuel. by apply (walk_fuel_mono fetch userDid n).
  - intros fuel feed out item Hout <-.
    apply (filter_result fetch userDid) in Hout as ->.
    intros [Hk _]%list_elem_of_filter. unfold keeps in Hk.
    destruct (has_repost_reason item); [done|].
    destruct (is_repost_record (post item)); [done|].
    destruct (text (record (post item))); [|done].
    assert (is_Some (reply (record (post item)))) as [r Hr]
      by (inversion Hfails; by eexists).
    rewrite Hr in Hk.
    by pose proof (walk_deterministic fetch userDid _ _ _ _ _ _ Hk Hn).
Qed.

(** X21. What the walk accepts. The walk returns [true], for some
    number of steps, exactly on the chains of posts of the target
    account that end at a post without reply reference or at a lookup
    that succeeds without a post. *)
Theorem accepted_iff (p : BlueskyPost) :
  (∃ fuel, isReplyInSelfOnlyThread fetch fuel p userDid = Some true) ↔
  Accepted fetch userDid p.
Proof.
  split.
  - intros [fuel Hw]. by eapply walk_true_accepted.
  - intros Hacc. by apply walk_accepts.
Qed.

End Filter.

Lemma nonreply_kept_witness :
  Samples.entry Samples.my_root
    ∈ [Samples.entry Samples.my_reply2; Samples.entry Samples.my_reply;
       Samples.entry Samples.my_root] ↔
  has_repost_reason (Samples.entry Samples.my_root) = false ∧
  is_repost_record (post (Samples.entry Samples.my_root)) = false ∧
  is_Some (text (record (post (Samples.entry Samples.my_root)))).
Proof.
  apply (nonreply_kept Samples.net Samples.me 5 Samples.feed).
  - by vm_compute.
  - unfold Samples.feed. set_solver.
  - reflexivity.
Defined.

Lemma filter_idempotent_witness :
  filterPostsForSelfOnlyThreads Samples.net 5
    [Samples.entry Samples.my_reply2; Samples.entry Samples.my_reply;
     Samples.entry Samples.my_root] Samples.me
  = Some [Samples.entry Samples.my_reply2; Samples.entry Samples.my_reply;
          Samples.entry Samples.my_root].
Proof.
  apply (filter_idempotent Samples.net Samples.me 5 Samples.feed). by vm_compute.
Defined.

Lemma failing_lookup_excluded_witness :
  (∃ n, ∀ fuel, (n ≤ fuel)%nat →
     isReplyInSelfOnlyThread Samples.net fuel Samples.reply_to_gone Samples.me
     = Some false) ∧
  ∀ fuel feed out item,
    filterPostsForSelfOnlyThreads Samples.net fuel feed Samples.me = Some out →
    post item = Samples.reply_to_gone → item ∉ out.
Proof.
  apply (failing_lookup_excluded Samples.net Samples.me Samples.reply_to_gone).
  eapply (fails_here _ Samples.reply_to_gone); [reflexivity|].
  right. left. reflexivity.
Defined.

End FilterExtra.

(** * Further properties of the thread builder *)

Module BuilderExtra.
Import Bluesky BuilderSpec MoreSpec ListFacts SortProofs BuilderProofs.

Lemma reach_snoc m r p c : reach m r p → c ∈ children_of m p → reach m r c.
Proof.
  induction 1 as [u|u c' v Hc' Hreach IH]; intros Hc.
  - apply (reach_below _ u c c); [done|constructor].
  - apply (reach_below _ u c' c); [done|by apply IH].
Qed.

Section Page.

Variable posts : list BlueskyFeedItem.
Variable forest : ThreadForest.
Hypothesis forest_built : built_from posts forest.

Lemma rooted_in_forest item : Rooted posts item → in_forest forest (uri_of item).
Proof.
  induction 1 as [item Hitem Hroot|item parent (Hitem & Hparent & Hreply) Hrooted IH].
  - exists (uri_of item). split; [|constructor].
    apply (forest_root_elem posts); [done|]. exists item. by rewrite root_entry_iff.
  - destruct IH as (r & Hr & Hreach). exists r. split; [done|].
    apply (reach_snoc _ r (uri_of parent)); [done|].
    apply (forest_child_elem posts); [done|]. exists item.
    repeat split; try done. apply list_elem_of_fmap. by exists parent.
Qed.

Lemma reach_rooted r u :
  reach (nodes forest) r u →
  (∃ item, item ∈ posts ∧ uri_of item = r ∧ Rooted posts item) →
  ∃ item, item ∈ posts ∧ uri_of item = u ∧ Rooted posts item.
Proof.
  induction 1 as [u|u c v Hc Hreach IH]; [done|].
  intros (parent & Hparent & <- & Hrooted). apply IH.
  apply (forest_child_elem posts) in Hc as (item & Hitem & <- & Hreply & _); [|done].
  exists item. split; [done|]. split; [done|].
  by apply (rooted_reply posts item parent).
Qed.

Lemma in_forest_rooted u :
  in_forest forest u → ∃ item, item ∈ posts ∧ uri_of item = u ∧ Rooted posts item.
Proof.
  intros (r & Hr & Hreach). apply (reach_rooted r); [done|].
  apply (forest_root_elem posts) in Hr as (item & Hitem & <- & Hroot); [|done].
  exists item. split; [done|]. split; [done|].
  apply rooted_root; [done|]. by apply root_entry_iff.
Qed.

Hypothesis unique_uris : NoDup (uri_of <$> posts).

Lemma one_parent_entry item parent parent' :
  replies_to posts item parent → replies_to posts item parent' → parent = parent'.
Proof.
  intros (_ & Hp & Hr) (_ & Hp' & Hr'). apply (same_uri posts); try done. congruence.
Qed.

Lemma cycle_step item :
  tc (replies_to posts) item item →
  ∃ parent, replies_to posts item parent ∧
            (parent = item ∨ tc (replies_to posts) parent item).
Proof.
  intros Hcycle. inversion Hcycle as [x y Hstep|x y z Hstep Htc]; subst.
  - exists item. split; [done|by left].
  - exists y. split; [done|by right].
Qed.

Lemma rooted_acyclic item : Rooted posts item → ¬ tc (replies_to posts) item item.
Proof.
  induction 1 as [item Hitem Hroot|item parent Hreply Hrooted IH]; intros Hcycle.
  - apply Hroot. apply cycle_step in Hcycle as (y & (_ & Hy & Hp) & _).
    exists (uri_of y). split; [done|]. apply list_elem_of_fmap. by exists y.
  - apply IH. apply cycle_step in Hcycle as (y & Hstep & Hrest).
    rewrite (one_parent_entry _ _ _ Hreply Hstep).
    destruct Hrest as [->|Htc]; [by apply tc_once|].
    eapply tc_r; [exact Htc|exact Hstep].
Qed.

End Page.

(** X22. Which entries are in the forest. For a page of entries with
    distinct URIs the builder returns a forest all of whose nodes are
    entries of the page, and an entry of the page is a node of the forest
    (a root or below a root) exactly when its chain of parents within the
    page ends at an entry that is no reply to a post of the page. *)
Theorem forest_holds_rooted (posts : list BlueskyFeedItem) (userDid : string) :
  NoDup (uri_of <$> posts) →
  ∃ forest,
    (∀ fuel, (length posts ≤ fuel)%nat →
       groupPostsIntoThreads fuel posts userDid = Some forest) ∧
    (∀ u, in_forest forest u → u ∈ uri_of <$> posts) ∧
    (∀ item, item ∈ posts → in_forest forest (uri_of item) ↔ Rooted posts item).
Proof.
  intros Hnd. destruct (group_returns posts Hnd userDid) as [forest Hgroup].
  pose proof (group_result posts _ _ _ (Hgroup _ (le_n _))) as Hbuilt.
  exists forest. split; [done|]. split.
  - intros u Hu. by apply (in_forest_built posts forest u Hbuilt).
  - intros item Hitem. split; [|by apply rooted_in_forest].
    intros (item' & Hitem' & Heq & Hrooted)%(in_forest_rooted posts); [|done].
    by apply (same_uri posts Hnd) in Heq as ->.
Qed.

(** X23. Entries on a reply cycle are dropped. For a page of entries with
    distinct URIs, an entry that is its own ancestor within the page (it
    replies to itself, or to a reply to it, and so on) is no node of the
    forest the builder returns. *)
Theorem cycle_dropped (posts : list BlueskyFeedItem) (userDid : string)
    (item : BlueskyFeedItem) :
  NoDup (uri_of <$> posts) →
  tc (replies_to posts) item item →
  ∃ forest,
    (∀ fuel, (length posts ≤ fuel)%nat →
       groupPostsIntoThreads fuel posts userDid = Some forest) ∧
    ¬ in_forest forest (uri_of item).
Proof.
  intros Hnd Hcycle. destruct (group_returns posts Hnd userDid) as [forest Hgroup].
  pose proof (group_result posts _ _ _ (Hgroup _ (le_n _))) as Hbuilt.
  exists forest. split; [done|].
  intros (item' & Hitem' & Heq & Hrooted)%(in_forest_rooted posts); [|done].
  assert (item ∈ posts) as Hitem.
  { inversion Hcycle as [x y Hstep|x y z Hstep Htc]; subst; by destruct Hstep. }
  apply (same_uri posts Hnd) in Heq as ->; [|done..].
  by apply (rooted_acyclic posts Hnd item).
Qed.

(** X24. Nothing is attached twice. For a page of entries with distinct
    URIs, no reference occurs twice among the roots of the forest the
    builder returns, nor twice among the children of a node. *)
Theorem forest_without_repeats (posts : list BlueskyFeedItem) (userDid : string) :
  NoDup (uri_of <$> posts) →
  ∃ forest,
    (∀ fuel, (length posts ≤ fuel)%nat →
       groupPostsIntoThreads fuel posts userDid = Some forest) ∧
    NoDup (roots forest) ∧
    ∀ u, NoDup (children_of (nodes forest) u).
Proof.
  intros Hnd. destruct (group_returns posts Hnd userDid) as [forest Hgroup].
  pose proof (group_result posts _ _ _ (Hgroup _ (le_n _))) as (Hroots & Hpart & _).
  exists forest. split; [done|]. split.
  - rewrite Hroots, js_sort_perm, build_roots.
    eapply sublist_NoDup; [exact Hnd|]. apply fmap_sublist, sublist_filter.
  - intros u.
    assert (NoDup (children_of (postMap (build posts)) u)) as Hkids.
    { destruct (index_posts posts !! u) as [node|] eqn:Hu.
      - rewrite build_children by (by eexists).
        eapply sublist_NoDup; [exact Hnd|]. apply fmap_sublist, sublist_filter.
      - rewrite build_children_None by done. constructor. }
    destruct (partly_children _ _ u Hpart) as [->| ->]; [done|].
    unfold sorted_kids. by rewrite js_sort_perm.
Qed.

Lemma loop_page_unique :
  NoDup (uri_of <$> [Samples.entry Samples.loop_post; Samples.entry Samples.my_root]).
Proof. apply (bool_decide_unpack _). by vm_compute. Qed.

Lemma forest_holds_rooted_witness :
  ∃ forest,
    (∀ fuel, (length Samples.page ≤ fuel)%nat →
       groupPostsIntoThreads fuel Samples.page Samples.me = Some forest) ∧
    (∀ u, in_forest forest u → u ∈ uri_of <$> Samples.page) ∧
    (∀ item, item ∈ Samples.page →
       in_forest forest (uri_of item) ↔ Rooted Samples.page item).
Proof. exact (forest_holds_rooted Samples.page Samples.me page_unique). Defined.

Lemma cycle_dropped_witness :
  ∃ forest,
    (∀ fuel, (length [Samples.entry Samples.loop_post; Samples.entry Samples.my_root]
              ≤ fuel)%nat →
       groupPostsIntoThreads fuel
         [Samples.entry Samples.loop_post; Samples.entry Samples.my_root] Samples.me
       = Some forest) ∧
    ¬ in_forest forest (uri_of (Samples.entry Samples.loop_post)).
Proof.
  apply (cycle_dropped [Samples.entry Samples.loop_post; Samples.entry Samples.my_root]
           Samples.me (Samples.entry Samples.loop_post) loop_page_unique).
  apply tc_once. split; [by left|]. split; [by left|]. reflexivity.
Defined.

Lemma forest_without_repeats_witness :
  ∃ forest,
    (∀ fuel, (length Samples.tie_page ≤ fuel)%nat →
       groupPostsIntoThreads fuel Samples.tie_page Samples.me = Some forest) ∧
    NoDup (roots forest) ∧
    ∀ u, NoDup (children_of (nodes forest) u).
Proof. exact (forest_without_repeats Samples.tie_page Samples.me tie_page_unique). Defined.

(** A post that answers itself is in no thread: the page of the sample
    loop post and a root yields the root alone. *)
Example loop_page_built :
  (λ f, (roots f, children_of (nodes f) "at://me/8"))
    <$> groupPostsIntoThreads 2
          [Samples.entry Samples.loop_post; Samples.entry Samples.my_root] Samples.me
  = Some (["at://me/1"], ["at://me/8"]).
Proof. by vm_compute. Qed.

End BuilderExtra.

(** * Properties of the display helpers *)

Module UtilExtra.
Import MoreSpec Util.

Lemma append_cons c (s t : string) : String c s +:+ t = String c (s +:+ t).
Proof. done. Qed.

Lemma append_nil (t : string) : "" +:+ t = t.
Proof. done. Qed.

Lemma split_slash_cons s : ∃ seg segs, split_slash s = seg :: segs.
Proof.
  destruct s as [|c s]; simpl; [by eexists _, _|].
  case_bool_decide; [by eexists _, _|].
  destruct (split_slash s); by eexists _, _.
Qed.

(** Splitting distributes over a slash. *)
Lemma split_slash_app (s t : string) :
  split_slash (s +:+ "/" +:+ t) = split_slash s ++ split_slash t.
Proof.
  induction s as [|c s IH].
  { by rewrite append_nil. }
  rewrite append_cons. simpl. rewrite IH. case_bool_decide; [done|].
  by destruct (split_slash_cons s) as (seg & segs & ->).
Qed.

Lemma split_slash_whole s : no_slash s = true → split_slash s = [s].
Proof.
  induction s as [|c s IH]; [done|]. simpl.
  intros [Hc Hs]%andb_true_iff. apply negb_true_iff in Hc. rewrite Hc.
  by rewrite (IH Hs).
Qed.

Lemma split_slash_segments s : Forall (λ seg, no_slash seg = true) (split_slash s).
Proof.
  induction s as [|c s IH]; simpl; [by repeat constructor|].
  case_bool_decide as Hc; [by constructor|].
  destruct (split_slash s) as [|seg segs]; [repeat constructor; simpl|].
  - by rewrite bool_decide_eq_false_2.
  - apply Forall_cons in IH as [Hseg Hsegs]. constructor; [|done].
    simpl. by rewrite bool_decide_eq_false_2.
Qed.

(** X25. The link of a post. [getPostUrl] puts the handle and the part
    of the URI after its last slash into the link: for a URI that ends in
    a slash and a record key without slash, that key; for a URI without
    any slash, the whole URI; and in every case a text without slash, so
    that the link has the path of a post of the profile. *)
Theorem getPostUrl_record_key (handle : string) :
  (∀ collection rkey,
     no_slash rkey = true →
     getPostUrl (collection +:+ "/" +:+ rkey) handle
     = "https://bsky.app/profile/" +:+ handle +:+ "/post/" +:+ rkey) ∧
  (∀ uri,
     no_slash uri = true →
     getPostUrl uri handle = "https://bsky.app/profile/" +:+ handle +:+ "/post/" +:+ uri) ∧
  (∀ uri, ∃ postId,
     no_slash postId = true ∧
     getPostUrl uri handle
     = "https://bsky.app/profile/" +:+ handle +:+ "/post/" +:+ postId).
Proof.
  split; [|split].
  - intros collection rkey Hkey. unfold getPostUrl.
    rewrite split_slash_app, (split_slash_whole rkey Hkey).
    by rewrite last_snoc.
  - intros uri Huri. unfold getPostUrl. by rewrite (split_slash_whole uri Huri).
  - intros uri. unfold getPostUrl.
    destruct (split_slash_cons uri) as (seg & segs & Hsplit).
    destruct (last (split_slash uri)) as [postId|] eqn:Hlast.
    + exists postId. split; [|done].
      pose proof (split_slash_segments uri) as Hall. rewrite Forall_forall in Hall.
      apply Hall. by apply last_Some_elem_of.
    + rewrite Hsplit in Hlast. by apply last_None in Hlast.
Qed.

Section FormatDate.

Variable toLocaleDateString : Z → bool → string.
Variable getFullYear : Z → Z.

(** X26. The age shown for a post. [formatDate] shows "now" for a date
    less than a minute old and for every date in the future; then whole
    minutes, from 1 to 59, up to the hour; whole hours, from 1 to 23, up
    to the day; whole days, from 1 to 6, up to the week; and the date of
    the locale from seven days on, with the year exactly when the years
    differ. It never shows 0 of a unit. *)
Theorem formatDate_units (now date : Z) :
  (now - date < 60000 →
   formatDate toLocaleDateString getFullYear now date = "now") ∧
  (60000 ≤ now - date < 3600000 →
   formatDate toLocaleDateString getFullYear now date
   = pretty ((now - date) `div` 60000) +:+ "m" ∧
   1 ≤ (now - date) `div` 60000 ≤ 59) ∧
  (3600000 ≤ now - date < 86400000 →
   formatDate toLocaleDateString getFullYear now date
   = pretty ((now - date) `div` 3600000) +:+ "h" ∧
   1 ≤ (now - date) `div` 3600000 ≤ 23) ∧
  (86400000 ≤ now - date < 604800000 →
   formatDate toLocaleDateString getFullYear now date
   = pretty ((now - date) `div` 86400000) +:+ "d" ∧
   1 ≤ (now - date) `div` 86400000 ≤ 6) ∧
  (604800000 ≤ now - date →
   formatDate toLocaleDateString getFullYear now date
   = toLocaleDateString date (bool_decide (getFullYear date ≠ getFullYear now))).
Proof.
  unfold formatDate.
  change (1000 * 60 * 60 * 24) with 86400000.
  change (1000 * 60 * 60) with 3600000.
  change (1000 * 60) with 60000.
  pose proof (Z.div_mod (now - date) 60000 ltac:(lia)) as Hm.
  pose proof (Z.mod_pos_bound (now - date) 60000 ltac:(lia)) as Hmr.
  pose proof (Z.div_mod (now - date) 3600000 ltac:(lia)) as Hh.
  pose proof (Z.mod_pos_bound (now - date) 3600000 ltac:(lia)) as Hhr.
  pose proof (Z.div_mod (now - date) 86400000 ltac:(lia)) as Hd.
  pose proof (Z.mod_pos_bound (now - date) 86400000 ltac:(lia)) as Hdr.
  repeat split; intros;
    repeat (case_bool_decide; try lia); try done; lia.
Qed.

End FormatDate.

End UtilExtra.
